(** * Torque declarables and PrototypeInfo accessors

    A shallow embedding of [src/torque/declarable.h] (the declaration and
    symbol-table model of the Torque compiler) and of
    [src/objects/prototype-info-inl.h], with the properties of the
    specification stated and proved over it.

    Objects live in an arena addressed by index; a C++ pointer is an optional
    address.  Methods that can abort, report an error or leave defined
    behaviour return an [Outcome]. *)

From stdpp Require Import base option list gmap strings.
From Stdlib Require Import ZArith Lia.

(** ** Outcomes of a call *)

(** The ways a call can leave the defined behaviour of C++. *)
Inductive Undef : Type :=
  | NullDereference   (* member access through nullptr *)
  | DanglingPointer   (* member access through an address that holds no object *)
  | EmptyOptional     (* operator* on an optional that holds no value *)
  | BadDowncast.      (* a pointer used at a class its object does not have *)

Inductive Outcome (A : Type) : Type :=
  | Ok (a : A)              (* the call returns *)
  | Fatal                   (* a failed DCHECK *)
  | Error (msg : string)    (* ReportError *)
  | Undefined (u : Undef)   (* undefined behaviour *)
  | Diverges.               (* the recursion or loop does not end *)

Arguments Ok {A} a.
Arguments Fatal {A}.
Arguments Error {A} msg.
Arguments Undefined {A} u.
Arguments Diverges {A}.

#[global] Instance Outcome_ret : MRet Outcome := @Ok.

#[global] Instance Outcome_bind : MBind Outcome := λ A B f m,
  match m with
  | Ok a => f a
  | Fatal => Fatal
  | Error msg => Error msg
  | Undefined u => Undefined u
  | Diverges => Diverges
  end.

Definition is_Ok {A} (m : Outcome A) : bool :=
  match m with Ok _ => true | _ => false end.

(** Modelled from the spec: the macros DCHECK and DCHECK_EQ of
    src/base/logging.h, which is not among the sources.  The spec reads a
    failed check as a fatal invariant violation that aborts the
    compilation. *)
Definition DCHECK (condition : bool) : Outcome () :=
  if condition then Ok () else Fatal.

Definition DCHECK_EQ (a b : nat) : Outcome () := DCHECK (bool_decide (a = b)).

(** Modelled from the spec: ReportError of src/torque/utils.h, which is not
    among the sources.  The spec reads it as a recoverable declaration error:
    the construct that raised it is left, the diagnostic is recorded and the
    pass goes on with the next declaration. *)
Definition ReportError {A} (msg : string) : Outcome A := Error msg.

(** base::Optional<T>::operator* (src/base/optional.h is not among the
    sources): the value held, and no defined result when there is none. *)
Definition Optional_deref {A} (o : option A) : Outcome A :=
  match o with Some a => Ok a | None => Undefined EmptyOptional end.

(** ** Pointers and external data *)

Abbreviation addr := nat.

(** [T*]: [None] is nullptr. *)
Abbreviation Ptr := (option addr).
Definition nullptr : Ptr := None.

(** Modelled from the spec: SourcePosition, TypeVector, Signature and
    VisitResult are declared in headers that are not among the sources
    (utils.h, types.h).  A signature packages ordered parameter names,
    parameter types with a variadic flag, a return type and the declared
    exit labels; a VisitResult pairs a type with a value string. *)
Record SourcePosition := { pos_line : nat; pos_column : nat }.

Abbreviation TypeVector := (list Ptr).
Abbreviation NameVector := (list string).

Record ParameterTypes := { types : TypeVector; var_args : bool }.

Record LabelDeclaration := { label_name : string; label_types : TypeVector }.

Record Signature := {
  parameter_names : NameVector;
  parameter_types : ParameterTypes;
  return_type : Ptr;
  labels : list LabelDeclaration
}.

Record VisitResult := { vr_type : Ptr; vr_value : string }.

(** The contextual variables read by every constructor:
    CurrentScope::Get() and CurrentSourcePosition::Get(). *)
Record Context := {
  CurrentScope : Ptr;
  CurrentSourcePosition : SourcePosition
}.

(** ** class Declarable *)

Inductive Kind : Type :=
  | kModule
  | kMacro
  | kBuiltin
  | kRuntimeFunction
  | kGeneric
  | kTypeAlias
  | kExternConstant
  | kModuleConstant.

#[global] Instance Kind_eq_dec : EqDecision Kind.
Proof. solve_decision. Defined.

Record Declarable := {
  kind_ : Kind;
  parent_scope_ : Ptr;
  pos_ : SourcePosition
}.

Definition kind (d : Declarable) : Kind := kind_ d.
Definition IsModule (d : Declarable) : bool := bool_decide (kind d = kModule).
Definition IsMacro (d : Declarable) : bool := bool_decide (kind d = kMacro).
Definition IsBuiltin (d : Declarable) : bool := bool_decide (kind d = kBuiltin).
Definition IsRuntimeFunction (d : Declarable) : bool :=
  bool_decide (kind d = kRuntimeFunction).
Definition IsGeneric (d : Declarable) : bool := bool_decide (kind d = kGeneric).
Definition IsTypeAlias (d : Declarable) : bool :=
  bool_decide (kind d = kTypeAlias).
Definition IsExternConstant (d : Declarable) : bool :=
  bool_decide (kind d = kExternConstant).
Definition IsModuleConstant (d : Declarable) : bool :=
  bool_decide (kind d = kModuleConstant).
Definition IsValue (d : Declarable) : bool :=
  IsExternConstant d || IsModuleConstant d.
Definition IsCallable (d : Declarable) : bool :=
  IsMacro d || IsBuiltin d || IsRuntimeFunction d.
Definition ParentScope (d : Declarable) : Ptr := parent_scope_ d.
Definition pos (d : Declarable) : SourcePosition := pos_ d.

(** explicit Declarable(Kind kind): the scope and the position are taken
    from the contextual variables. *)
Definition Declarable_ctor (ctx : Context) (k : Kind) : Declarable :=
  {| kind_ := k;
     parent_scope_ := CurrentScope ctx;
     pos_ := CurrentSourcePosition ctx |}.

(** ** class Scope *)

Record Scope := {
  Scope_base : Declarable;
  declarations_ : gmap string (list Ptr)
}.

Definition Scope_ctor (ctx : Context) (k : Kind) : Scope :=
  {| Scope_base := Declarable_ctor ctx k; declarations_ := ∅ |}.

(** [declarations_[name]]: operator[] of the unordered_map returns the
    vector stored under [name] and first stores an empty one when the key is
    absent. *)
Definition subscript (m : gmap string (list Ptr)) (name : string)
  : list Ptr * gmap string (list Ptr) :=
  match m !! name with
  | Some v => (v, m)
  | None => ([], <[name := []]> m)
  end.

Definition push_back {A} (v : list A) (x : A) : list A := v ++ [x].

Definition Scope_LookupShallow (name : string) (this : Scope)
  : list Ptr * Scope :=
  let '(v, m) := subscript (declarations_ this) name in
  (v, {| Scope_base := Scope_base this; declarations_ := m |}).

Definition Scope_AddDeclarable (name : string) (declarable : Ptr)
  (this : Scope) : Ptr * Scope :=
  let '(v, m) := subscript (declarations_ this) name in
  (declarable,
   {| Scope_base := Scope_base this;
      declarations_ := <[name := push_back v declarable]> m |}).

(** ** class Module *)

Record Module := {
  Module_base : Scope;
  Module_name_ : string;
  header_stream_ : string;
  source_stream_ : string
}.

Definition Module_ctor (ctx : Context) (name : string) : Module :=
  {| Module_base := Scope_ctor ctx kModule;
     Module_name_ := name;
     header_stream_ := "";
     source_stream_ := "" |}.

Definition source (this : Module) : string := source_stream_ this.
Definition header (this : Module) : string := header_stream_ this.

(** ** class Value and its two concrete classes *)

Definition has_value {A} (o : option A) : bool :=
  match o with Some _ => true | None => false end.

Record Value := {
  Value_base : Declarable;
  type_ : Ptr;
  Value_name_ : string;
  value_ : option VisitResult
}.

Definition Value_ctor (ctx : Context) (k : Kind) (type : Ptr) (name : string)
  : Value :=
  {| Value_base := Declarable_ctor ctx k;
     type_ := type;
     Value_name_ := name;
     value_ := None |}.

Definition value (this : Value) : Outcome VisitResult :=
  Optional_deref (value_ this).

Definition set_value (v : VisitResult) (this : Value) : Outcome Value :=
  _ ← DCHECK (negb (has_value (value_ this)));
  Ok {| Value_base := Value_base this;
        type_ := type_ this;
        Value_name_ := Value_name_ this;
        value_ := Some v |}.

Record ModuleConstant := {
  ModuleConstant_base : Value;
  constant_name_ : string;
  ModuleConstant_body_ : Ptr
}.

Definition ModuleConstant_ctor (ctx : Context) (constant_name : string)
  (type : Ptr) (body : Ptr) : ModuleConstant :=
  {| ModuleConstant_base := Value_ctor ctx kModuleConstant type constant_name;
     constant_name_ := constant_name;
     ModuleConstant_body_ := body |}.

Record ExternConstant := { ExternConstant_base : Value }.

Definition ExternConstant_ctor (ctx : Context) (name : string) (type : Ptr)
  (v : string) : Outcome ExternConstant :=
  base ← set_value {| vr_type := type; vr_value := v |}
                   (Value_ctor ctx kExternConstant type name);
  Ok {| ExternConstant_base := base |}.

(** ** class Callable and its three concrete classes *)

Record Callable := {
  Callable_base : Scope;
  Callable_name_ : string;
  signature_ : Signature;
  transitioning_ : bool;
  returns_ : N;
  body_ : option Ptr
}.

(** The constructor checks [DCHECK(!body || *body)]: a body that is supplied
    is a non-null statement. *)
Definition Callable_ctor (ctx : Context) (k : Kind) (name : string)
  (signature : Signature) (transitioning : bool) (body : option Ptr)
  : Outcome Callable :=
  _ ← DCHECK (negb (has_value body)
              || match body with Some stmt => has_value stmt | None => false end);
  Ok {| Callable_base := Scope_ctor ctx k;
        Callable_name_ := name;
        signature_ := signature;
        transitioning_ := transitioning;
        returns_ := 0%N;
        body_ := body |}.

Definition signature (this : Callable) : Signature := signature_ this.
Definition body (this : Callable) : option Ptr := body_ this.
Definition IsTransitioning (this : Callable) : bool := transitioning_ this.
Definition IsExternal (this : Callable) : bool := negb (has_value (body_ this)).
Definition HasReturns (this : Callable) : bool := negb (returns_ this =? 0)%N.

(** [++returns_] on a size_t of 64 bits. *)
Definition IncrementReturns (this : Callable) : Callable :=
  {| Callable_base := Callable_base this;
     Callable_name_ := Callable_name_ this;
     signature_ := signature_ this;
     transitioning_ := transitioning_ this;
     returns_ := ((returns_ this + 1) mod 2 ^ 64)%N;
     body_ := body_ this |}.

Definition Callable_with_scope (s : Scope) (this : Callable) : Callable :=
  {| Callable_base := s;
     Callable_name_ := Callable_name_ this;
     signature_ := signature_ this;
     transitioning_ := transitioning_ this;
     returns_ := returns_ this;
     body_ := body_ this |}.

Record Macro := { Macro_base : Callable }.

Definition Macro_ctor (ctx : Context) (name : string) (signature : Signature)
  (transitioning : bool) (body : option Ptr) : Outcome Macro :=
  base ← Callable_ctor ctx kMacro name signature transitioning body;
  _ ← (if var_args (parameter_types signature)
       then ReportError "Varargs are not supported for macros."
       else Ok ());
  Ok {| Macro_base := base |}.

Inductive BuiltinKind : Type := kStub | kFixedArgsJavaScript | kVarArgsJavaScript.

#[global] Instance BuiltinKind_eq_dec : EqDecision BuiltinKind.
Proof. solve_decision. Defined.

Record Builtin := { Builtin_base : Callable; Builtin_kind_ : BuiltinKind }.

Definition Builtin_ctor (ctx : Context) (name : string) (k : BuiltinKind)
  (signature : Signature) (transitioning : bool) (body : option Ptr)
  : Outcome Builtin :=
  base ← Callable_ctor ctx kBuiltin name signature transitioning body;
  Ok {| Builtin_base := base; Builtin_kind_ := k |}.

Definition IsStub (this : Builtin) : bool :=
  bool_decide (Builtin_kind_ this = kStub).
Definition IsVarArgsJavaScript (this : Builtin) : bool :=
  bool_decide (Builtin_kind_ this = kVarArgsJavaScript).
Definition IsFixedArgsJavaScript (this : Builtin) : bool :=
  bool_decide (Builtin_kind_ this = kFixedArgsJavaScript).

Record RuntimeFunction := { RuntimeFunction_base : Callable }.

Definition RuntimeFunction_ctor (ctx : Context) (name : string)
  (signature : Signature) (transitioning : bool) : Outcome RuntimeFunction :=
  base ← Callable_ctor ctx kRuntimeFunction name signature transitioning None;
  Ok {| RuntimeFunction_base := base |}.

(** ** class Generic *)

Record Generic := {
  Generic_base : Declarable;
  Generic_name_ : string;
  specializations_ : gmap TypeVector Ptr;
  declaration_ : Ptr
}.

Definition Generic_ctor (ctx : Context) (name : string) (declaration : Ptr)
  : Generic :=
  {| Generic_base := Declarable_ctor ctx kGeneric;
     Generic_name_ := name;
     specializations_ := ∅;
     declaration_ := declaration |}.

(** unordered_map::count: 1 when the key is stored, 0 otherwise. *)
Definition count (m : gmap TypeVector Ptr) (k : TypeVector) : nat :=
  match m !! k with Some _ => 1 | None => 0 end.

Definition AddSpecialization (type_arguments : TypeVector)
  (specialization : Ptr) (this : Generic) : Outcome Generic :=
  _ ← DCHECK_EQ 0 (count (specializations_ this) type_arguments);
  Ok {| Generic_base := Generic_base this;
        Generic_name_ := Generic_name_ this;
        specializations_ :=
          <[type_arguments := specialization]> (specializations_ this);
        declaration_ := declaration_ this |}.

Definition GetSpecialization (type_arguments : TypeVector) (this : Generic)
  : option Ptr :=
  specializations_ this !! type_arguments.

(** ** class TypeAlias *)

Record TypeAlias := {
  TypeAlias_base : Declarable;
  TypeAlias_type_ : Ptr;
  redeclaration_ : bool
}.

Definition TypeAlias_ctor (ctx : Context) (type : Ptr) (redeclaration : bool)
  : TypeAlias :=
  {| TypeAlias_base := Declarable_ctor ctx kTypeAlias;
     TypeAlias_type_ := type;
     redeclaration_ := redeclaration |}.

Definition IsRedeclaration (this : TypeAlias) : bool := redeclaration_ this.

(** ** The arena of declarables *)

(** An object of one of the eight concrete classes, those that carry a
    kind of their own.  Scope, Value and Callable are bases here: the arena
    holds no object built directly by the public [Scope::Scope(Kind)]. *)
Inductive Object : Type :=
  | OModule (m : Module)
  | OMacro (m : Macro)
  | OBuiltin (b : Builtin)
  | ORuntimeFunction (r : RuntimeFunction)
  | OGeneric (g : Generic)
  | OTypeAlias (t : TypeAlias)
  | OExternConstant (e : ExternConstant)
  | OModuleConstant (c : ModuleConstant).

(** The Scope subobject of an object whose class derives from Scope. *)
Definition Object_scope (o : Object) : option Scope :=
  match o with
  | OModule m => Some (Module_base m)
  | OMacro m => Some (Callable_base (Macro_base m))
  | OBuiltin b => Some (Callable_base (Builtin_base b))
  | ORuntimeFunction r => Some (Callable_base (RuntimeFunction_base r))
  | _ => None
  end.

(** The Declarable subobject. *)
Definition Object_base (o : Object) : Declarable :=
  match o with
  | OModule m => Scope_base (Module_base m)
  | OMacro m => Scope_base (Callable_base (Macro_base m))
  | OBuiltin b => Scope_base (Callable_base (Builtin_base b))
  | ORuntimeFunction r => Scope_base (Callable_base (RuntimeFunction_base r))
  | OGeneric g => Generic_base g
  | OTypeAlias t => TypeAlias_base t
  | OExternConstant e => Value_base (ExternConstant_base e)
  | OModuleConstant c => Value_base (ModuleConstant_base c)
  end.

(** The object with its Scope subobject replaced. *)
Definition Object_with_scope (s : Scope) (o : Object) : Object :=
  match o with
  | OModule m =>
      OModule {| Module_base := s;
                 Module_name_ := Module_name_ m;
                 header_stream_ := header_stream_ m;
                 source_stream_ := source_stream_ m |}
  | OMacro m => OMacro {| Macro_base := Callable_with_scope s (Macro_base m) |}
  | OBuiltin b =>
      OBuiltin {| Builtin_base := Callable_with_scope s (Builtin_base b);
                  Builtin_kind_ := Builtin_kind_ b |}
  | ORuntimeFunction r =>
      ORuntimeFunction
        {| RuntimeFunction_base :=
             Callable_with_scope s (RuntimeFunction_base r) |}
  | _ => o
  end.

(** The kind that the constructor of the object's class passes down. *)
Definition Object_kind (o : Object) : Kind :=
  match o with
  | OModule _ => kModule
  | OMacro _ => kMacro
  | OBuiltin _ => kBuiltin
  | ORuntimeFunction _ => kRuntimeFunction
  | OGeneric _ => kGeneric
  | OTypeAlias _ => kTypeAlias
  | OExternConstant _ => kExternConstant
  | OModuleConstant _ => kModuleConstant
  end.

Abbreviation Heap := (list Object).

(** [new]: objects are never destroyed, the next object takes the next
    address. *)
Definition new (o : Object) (h : Heap) : addr * Heap := (length h, h ++ [o]).

(** [p->]: access to the object behind a pointer. *)
Definition deref (h : Heap) (p : Ptr) : Outcome Object :=
  match p with
  | None => Undefined NullDereference
  | Some a =>
      match h !! a with
      | Some o => Ok o
      | None => Undefined DanglingPointer
      end
  end.

(** Access through a [Scope*]. *)
Definition deref_scope (h : Heap) (p : Ptr) : Outcome Scope :=
  o ← deref h p;
  match Object_scope o with
  | Some s => Ok s
  | None => Undefined BadDowncast
  end.

Definition store_scope (h : Heap) (a : addr) (s : Scope) : Heap :=
  match h !! a with
  | Some o => <[a := Object_with_scope s o]> h
  | None => h
  end.

(** ** DECLARE_DECLARABLE_BOILERPLATE(x, y) *)

(** The classes the macro is instantiated for. *)
Inductive Class : Type :=
  | class_Module
  | class_Value
  | class_ModuleConstant
  | class_ExternConstant
  | class_Callable
  | class_Macro
  | class_Builtin
  | class_RuntimeFunction
  | class_Generic
  | class_TypeAlias.

(** [Is##x] *)
Definition Is (x : Class) : Declarable → bool :=
  match x with
  | class_Module => IsModule
  | class_Value => IsValue
  | class_ModuleConstant => IsModuleConstant
  | class_ExternConstant => IsExternConstant
  | class_Callable => IsCallable
  | class_Macro => IsMacro
  | class_Builtin => IsBuiltin
  | class_RuntimeFunction => IsRuntimeFunction
  | class_Generic => IsGeneric
  | class_TypeAlias => IsTypeAlias
  end.

(** [#y] *)
Definition type_name (x : Class) : string :=
  match x with
  | class_Module => "module"
  | class_Value => "value"
  | class_ModuleConstant => "constant"
  | class_ExternConstant => "constant"
  | class_Callable => "callable"
  | class_Macro => "macro"
  | class_Builtin => "builtin"
  | class_RuntimeFunction => "runtime"
  | class_Generic => "generic"
  | class_TypeAlias => "type_alias"
  end.

(** [static x* cast(Declarable* declarable)]: static_cast keeps the
    address. *)
Definition cast (x : Class) (h : Heap) (declarable : Ptr) : Outcome Ptr :=
  d ← deref h declarable;
  _ ← DCHECK (Is x (Object_base d));
  Ok declarable.

(** [static x* DynamicCast(Declarable* declarable)] *)
Definition DynamicCast (x : Class) (h : Heap) (declarable : Ptr)
  : Outcome Ptr :=
  match declarable with
  | None => Ok nullptr
  | Some _ =>
      d ← deref h declarable;
      if negb (Is x (Object_base d)) then Ok nullptr else Ok declarable
  end.

(** The concrete class that carries a kind. *)
Definition class_of (k : Kind) : Class :=
  match k with
  | kModule => class_Module
  | kMacro => class_Macro
  | kBuiltin => class_Builtin
  | kRuntimeFunction => class_RuntimeFunction
  | kGeneric => class_Generic
  | kTypeAlias => class_TypeAlias
  | kExternConstant => class_ExternConstant
  | kModuleConstant => class_ModuleConstant
  end.

(** Whether the class of the object is [x] or derives from it. *)
Definition instance_of (x : Class) (o : Object) : bool :=
  match x, o with
  | class_Module, OModule _ => true
  | class_Value, (OExternConstant _ | OModuleConstant _) => true
  | class_ModuleConstant, OModuleConstant _ => true
  | class_ExternConstant, OExternConstant _ => true
  | class_Callable, (OMacro _ | OBuiltin _ | ORuntimeFunction _) => true
  | class_Macro, OMacro _ => true
  | class_Builtin, OBuiltin _ => true
  | class_RuntimeFunction, ORuntimeFunction _ => true
  | class_Generic, OGeneric _ => true
  | class_TypeAlias, OTypeAlias _ => true
  | _, _ => false
  end.

(** ** Scope methods through a pointer *)

Definition LookupShallow (h : Heap) (this : addr) (name : string)
  : Outcome (list Ptr * Heap) :=
  s ← deref_scope h (Some this);
  let '(v, s') := Scope_LookupShallow name s in
  Ok (v, store_scope h this s').

Definition AddDeclarable (h : Heap) (this : addr) (name : string)
  (declarable : Ptr) : Outcome (Ptr * Heap) :=
  s ← deref_scope h (Some this);
  let '(d, s') := Scope_AddDeclarable name declarable s in
  Ok (d, store_scope h this s').

(** [Scope::Lookup]; [depth] bounds the depth of the recursion through
    [ParentScope()]. *)
Fixpoint Lookup_rec (depth : nat) (h : Heap) (this : addr) (name : string)
  : Outcome (list Ptr * Heap) :=
  match depth with
  | 0 => Diverges
  | S depth' =>
      s ← deref_scope h (Some this);
      '(result, h1) ←
        match ParentScope (Scope_base s) with
        | Some parent => Lookup_rec depth' h parent name
        | None => Ok ([], h)
        end;
      '(v, h2) ← LookupShallow h1 this name;
      Ok (fold_left push_back v result, h2)
  end.

(** A chain of parents in an arena of [length h] objects that is longer than
    the arena runs in a cycle. *)
Definition Lookup (h : Heap) (this : addr) (name : string)
  : Outcome (list Ptr * Heap) :=
  Lookup_rec (length h) h this name.

(** ** CurrentModule *)

Fixpoint CurrentModule_loop (steps : nat) (h : Heap) (scope : Ptr)
  : Outcome Ptr :=
  match steps with
  | 0 => Diverges
  | S steps' =>
      m ← DynamicCast class_Module h scope;
      match m with
      | Some _ => Ok m
      | None =>
          o ← deref h scope;
          CurrentModule_loop steps' h (ParentScope (Object_base o))
      end
  end.

Definition CurrentModule (ctx : Context) (h : Heap) : Outcome Ptr :=
  CurrentModule_loop (S (length h)) h (CurrentScope ctx).

(** ** Construction of callables in the arena *)

Definition new_Module (ctx : Context) (h : Heap) (name : string)
  : addr * Heap :=
  new (OModule (Module_ctor ctx name)) h.

Definition new_Macro (ctx : Context) (h : Heap) (name : string)
  (signature : Signature) (transitioning : bool) (body : option Ptr)
  : Outcome (addr * Heap) :=
  m ← Macro_ctor ctx name signature transitioning body;
  Ok (new (OMacro m) h).

Definition new_Builtin (ctx : Context) (h : Heap) (name : string)
  (k : BuiltinKind) (signature : Signature) (transitioning : bool)
  (body : option Ptr) : Outcome (addr * Heap) :=
  b ← Builtin_ctor ctx name k signature transitioning body;
  Ok (new (OBuiltin b) h).

Definition new_RuntimeFunction (ctx : Context) (h : Heap) (name : string)
  (signature : Signature) (transitioning : bool) : Outcome (addr * Heap) :=
  r ← RuntimeFunction_ctor ctx name signature transitioning;
  Ok (new (ORuntimeFunction r) h).

(** ** Invariants of the arena *)

(** The vector a scope holds for a name, empty when the name is absent. *)
Definition decls (s : Scope) (name : string) : list Ptr :=
  default [] (declarations_ s !! name).

(** The parent of the object at [a] is null or an older Scope object. *)
Definition parent_ok (h : Heap) (a : addr) (o : Object) : bool :=
  match ParentScope (Object_base o) with
  | None => true
  | Some p =>
      bool_decide (p < a)
      && match h !! p with
         | Some po => has_value (Object_scope po)
         | None => false
         end
  end.

(** The kind stored in the object is the one of its class. *)
Definition kind_ok (o : Object) : bool :=
  bool_decide (kind (Object_base o) = Object_kind o).

Definition heap_wf (h : Heap) : Prop :=
  ∀ a o, h !! a = Some o → parent_ok h a o = true ∧ kind_ok o = true.

Definition heap_wfb (h : Heap) : bool :=
  forallb (λ ao, parent_ok h ao.1 ao.2 && kind_ok ao.2) (imap pair h).

(** A [Scope*] that is null or points to a Scope object of the arena. *)
Definition scope_ptr_ok (h : Heap) (p : Ptr) : bool :=
  match p with
  | None => true
  | Some a =>
      match h !! a with
      | Some o => has_value (Object_scope o)
      | None => false
      end
  end.

(** [ParentScope()] of the object at an address. *)
Definition parent_of (h : Heap) (a : addr) : Ptr :=
  match h !! a with
  | Some o => ParentScope (Object_base o)
  | None => nullptr
  end.

(** Two objects that [Lookup] cannot tell apart: the same Declarable
    subobject and, name by name, the same registered vectors. *)
Definition scope_sim (o o' : Object) : Prop :=
  Object_base o = Object_base o'
  ∧ Object_kind o = Object_kind o'
  ∧ option_Forall2 (λ s s', ∀ name, decls s name = decls s' name)
      (Object_scope o) (Object_scope o').

Definition heap_sim (h h' : Heap) : Prop := Forall2 scope_sim h h'.

(** The object at [a] is a Callable that is a namespace level of its own
    under the current scope of [ctx]: its Scope subobject has that scope as
    parent and an empty registry, LookupShallow finds nothing in it, and a
    declarable added to it is what LookupShallow then finds and what Lookup
    finds after the entries of the enclosing scopes. *)
Definition callable_scope (ctx : Context) (h : Heap) (a : addr) : Prop :=
  heap_wf h
  ∧ (∃ o s, h !! a = Some o
            ∧ instance_of class_Callable o = true
            ∧ Object_scope o = Some s
            ∧ ParentScope (Scope_base s) = CurrentScope ctx
            ∧ declarations_ s = ∅)
  ∧ (∀ name, ∃ h1, LookupShallow h a name = Ok ([], h1))
  ∧ (∀ name d, ∃ h1 h2 r h3,
       AddDeclarable h a name d = Ok (d, h1)
       ∧ LookupShallow h1 a name = Ok ([d], h2)
       ∧ Lookup h1 a name = Ok (r ++ [d], h3)
       ∧ match CurrentScope ctx with
         | Some parent => ∃ hp, Lookup h1 parent name = Ok (r, hp)
         | None => r = []
         end).

(** ** Arenas built by the header *)

(** The other non-const methods, called through a pointer to the object. *)
Definition Object_with_value (v : Value) (o : Object) : Object :=
  match o with
  | OExternConstant e => OExternConstant {| ExternConstant_base := v |}
  | OModuleConstant c =>
      OModuleConstant {| ModuleConstant_base := v;
                         constant_name_ := constant_name_ c;
                         ModuleConstant_body_ := ModuleConstant_body_ c |}
  | _ => o
  end.

Definition Object_with_callable (c : Callable) (o : Object) : Object :=
  match o with
  | OMacro m => OMacro {| Macro_base := c |}
  | OBuiltin b =>
      OBuiltin {| Builtin_base := c; Builtin_kind_ := Builtin_kind_ b |}
  | ORuntimeFunction r => ORuntimeFunction {| RuntimeFunction_base := c |}
  | _ => o
  end.

Definition call_set_value (h : Heap) (this : addr) (v : VisitResult)
  : Outcome Heap :=
  o ← deref h (Some this);
  match o with
  | OExternConstant e =>
      x ← set_value v (ExternConstant_base e);
      Ok (<[this := Object_with_value x o]> h)
  | OModuleConstant c =>
      x ← set_value v (ModuleConstant_base c);
      Ok (<[this := Object_with_value x o]> h)
  | _ => Undefined BadDowncast
  end.

Definition call_IncrementReturns_at (h : Heap) (this : addr) : Outcome Heap :=
  o ← deref h (Some this);
  match o with
  | OMacro m =>
      Ok (<[this := Object_with_callable (IncrementReturns (Macro_base m)) o]> h)
  | OBuiltin b =>
      Ok (<[this := Object_with_callable (IncrementReturns (Builtin_base b)) o]> h)
  | ORuntimeFunction r =>
      Ok (<[this := Object_with_callable
                      (IncrementReturns (RuntimeFunction_base r)) o]> h)
  | _ => Undefined BadDowncast
  end.

Definition call_AddSpecialization (h : Heap) (this : addr)
  (type_arguments : TypeVector) (specialization : Ptr) : Outcome Heap :=
  o ← deref h (Some this);
  match o with
  | OGeneric g =>
      g' ← AddSpecialization type_arguments specialization g;
      Ok (<[this := OGeneric g']> h)
  | _ => Undefined BadDowncast
  end.

(** The objects the constructors of the eight concrete classes build under
    a context. *)
Inductive constructed (ctx : Context) : Object → Prop :=
  | constructed_Module name :
      constructed ctx (OModule (Module_ctor ctx name))
  | constructed_Macro name sig tr body m :
      Macro_ctor ctx name sig tr body = Ok m → constructed ctx (OMacro m)
  | constructed_Builtin name bk sig tr body b :
      Builtin_ctor ctx name bk sig tr body = Ok b →
      constructed ctx (OBuiltin b)
  | constructed_RuntimeFunction name sig tr r :
      RuntimeFunction_ctor ctx name sig tr = Ok r →
      constructed ctx (ORuntimeFunction r)
  | constructed_Generic name decl :
      constructed ctx (OGeneric (Generic_ctor ctx name decl))
  | constructed_TypeAlias type redeclaration :
      constructed ctx (OTypeAlias (TypeAlias_ctor ctx type redeclaration))
  | constructed_ExternConstant name type v e :
      ExternConstant_ctor ctx name type v = Ok e →
      constructed ctx (OExternConstant e)
  | constructed_ModuleConstant name type body :
      constructed ctx (OModuleConstant (ModuleConstant_ctor ctx name type body)).

(** The arenas reached from the empty one by constructing objects of the
    concrete classes under a current scope that is null or a Scope of the
    arena, and by calling the methods of the header on them. *)
Inductive built : Heap → Prop :=
  | built_nil : built []
  | built_new ctx h o :
      built h → scope_ptr_ok h (CurrentScope ctx) = true →
      constructed ctx o → built (new o h).2
  | built_AddDeclarable h this name d r h' :
      built h → AddDeclarable h this name d = Ok (r, h') → built h'
  | built_LookupShallow h this name r h' :
      built h → LookupShallow h this name = Ok (r, h') → built h'
  | built_Lookup h this name r h' :
      built h → Lookup h this name = Ok (r, h') → built h'
  | built_set_value h this v h' :
      built h → call_set_value h this v = Ok h' → built h'
  | built_IncrementReturns h this h' :
      built h → call_IncrementReturns_at h this = Ok h' → built h'
  | built_AddSpecialization h this k c h' :
      built h → call_AddSpecialization h this k c = Ok h' → built h'.

(** ** The nearest enclosing module, read off the chain of parents *)

Fixpoint chain (n : nat) (h : Heap) (p : Ptr) : list addr :=
  match n with
  | 0 => []
  | S n' =>
      match p with
      | None => []
      | Some a =>
          match h !! a with
          | Some o => a :: chain n' h (ParentScope (Object_base o))
          | None => []
          end
      end
  end.

Definition is_module (h : Heap) (a : addr) : bool :=
  match h !! a with
  | Some o => IsModule (Object_base o)
  | None => false
  end.

Definition nearest_module (h : Heap) (p : Ptr) : option addr :=
  List.find (is_module h) (chain (length h) h p).

(** ** Sequences of calls on one object *)

(** AddSpecialization called for each pair in turn. *)
Fixpoint AddSpecializations (l : list (TypeVector * Ptr)) (g : Generic)
  : Outcome Generic :=
  match l with
  | [] => Ok g
  | (k, c) :: l' => g' ← AddSpecialization k c g; AddSpecializations l' g'
  end.

(** set_value called for each value in turn. *)
Fixpoint set_values (l : list VisitResult) (v : Value) : Outcome Value :=
  match l with
  | [] => Ok v
  | x :: l' => v' ← set_value x v; set_values l' v'
  end.

(** The non-const methods of a Callable, its own and those of Scope. *)
Inductive CallableCall : Type :=
  | call_IncrementReturns
  | call_LookupShallow (name : string)
  | call_AddDeclarable (name : string) (declarable : Ptr).

Definition Callable_call (c : CallableCall) (this : Callable) : Callable :=
  match c with
  | call_IncrementReturns => IncrementReturns this
  | call_LookupShallow name =>
      Callable_with_scope
        (Scope_LookupShallow name (Callable_base this)).2 this
  | call_AddDeclarable name d =>
      Callable_with_scope
        (Scope_AddDeclarable name d (Callable_base this)).2 this
  end.

Definition Callable_calls (l : list CallableCall) (this : Callable)
  : Callable :=
  fold_left (λ c call, Callable_call call c) l this.

(** ** PrototypeInfo: the accessors of the object-create map *)

(** What the accessors use of the headers that are not among the sources
    (maybe-object.h, objects.h, map.h): the pointer types, the constructor
    of a weak reference, its test and its projection, and the checked cast
    to a map. *)
Class MaybeObjectOps := {
  ObjectPtr : Type;
  HeapObjectPtr : Type;
  MapPtr : Type;
  MaybeObject : Type;
  Weak : HeapObjectPtr → MaybeObject;
  IsWeakHeapObject : MaybeObject → bool;
  ToWeakHeapObject : MaybeObject → Outcome HeapObjectPtr;
  Map_upcast : MapPtr → HeapObjectPtr;
  Map_cast : HeapObjectPtr → Outcome MapPtr
}.

(** What is assumed of them: a weak reference made from a heap object tests
    as weak and projects back to that object, and the cast to a map accepts
    a map. *)
Record MaybeObjectLaws (ops : MaybeObjectOps) : Prop := {
  IsWeak_Weak : ∀ o : HeapObjectPtr, IsWeakHeapObject (Weak o) = true;
  ToWeak_Weak : ∀ o : HeapObjectPtr, ToWeakHeapObject (Weak o) = Ok o;
  Map_cast_upcast : ∀ m : MapPtr, Map_cast (Map_upcast m) = Ok m
}.

(** The fields behind ACCESSORS, WEAK_ACCESSORS and SMI_ACCESSORS. *)
Record PrototypeInfo `{MaybeObjectOps} := {
  weak_cell : ObjectPtr;
  prototype_users : ObjectPtr;
  object_create_map : MaybeObject;
  registry_slot : Z;
  bit_field : Z
}.

Definition set_object_create_map `{MaybeObjectOps} (v : MaybeObject)
  (this : PrototypeInfo) : PrototypeInfo :=
  {| weak_cell := weak_cell this;
     prototype_users := prototype_users this;
     object_create_map := v;
     registry_slot := registry_slot this;
     bit_field := bit_field this |}.

Definition ObjectCreateMap `{MaybeObjectOps} (this : PrototypeInfo)
  : Outcome MapPtr :=
  o ← ToWeakHeapObject (object_create_map this);
  Map_cast o.

Definition SetObjectCreateMap `{MaybeObjectOps} (info : PrototypeInfo)
  (map : MapPtr) : PrototypeInfo :=
  set_object_create_map (Weak (Map_upcast map)) info.

Definition HasObjectCreateMap `{MaybeObjectOps} (this : PrototypeInfo)
  : bool :=
  let cache := object_create_map this in
  IsWeakHeapObject cache.

(** An instance of the interface on tagged words: a heap object at word
    index [p] is the word [4p+1], the weak reference to it sets bit 1, and
    the word 3 is the cleared weak reference. *)
Module TaggedWords.

Definition tagged (p : positive) : Z := Z.pos p~0~1.

Definition weak (p : positive) : Z := Z.lor (tagged p) 2.

Definition is_weak (w : Z) : bool := (Z.land w 3 =? 3)%Z && negb (w =? 3)%Z.

Definition to_weak (w : Z) : Outcome positive :=
  _ ← DCHECK (is_weak w);
  Ok (Z.to_pos (Z.shiftr (Z.land w (Z.lnot 2)) 2)).

#[export] Instance ops : MaybeObjectOps := {|
  ObjectPtr := Z;
  HeapObjectPtr := positive;
  MapPtr := positive;
  MaybeObject := Z;
  Weak := weak;
  IsWeakHeapObject := is_weak;
  ToWeakHeapObject := to_weak;
  Map_upcast := id;
  Map_cast := Ok
|}.

End TaggedWords.

(** ** Concrete declarations used as instances *)

Definition pos0 : SourcePosition := {| pos_line := 1; pos_column := 0 |}.

Definition at_root : Context :=
  {| CurrentScope := nullptr; CurrentSourcePosition := pos0 |}.

Definition inside (a : addr) : Context :=
  {| CurrentScope := Some a; CurrentSourcePosition := pos0 |}.

Definition Int32 : Ptr := Some 100.
Definition Float64 : Ptr := Some 101.

Definition fixed_signature : Signature :=
  {| parameter_names := ["x"];
     parameter_types := {| types := [Int32]; var_args := false |};
     return_type := Int32;
     labels := [] |}.

Definition variadic_signature : Signature :=
  {| parameter_names := ["x"];
     parameter_types := {| types := [Int32]; var_args := true |};
     return_type := Int32;
     labels := [] |}.

(** Module "M" at address 0; in it the extern constant kZero (address 1) and
    the macro Foo (address 2), both registered in M; in Foo the builtin Bar
    (address 3), registered in Foo under the name kZero. *)
Definition scenario : Outcome Heap :=
  let '(m, h) := new_Module at_root [] "M" in
  e ← ExternConstant_ctor (inside m) "kZero" Int32 "0";
  let '(c, h) := new (OExternConstant e) h in
  '(_, h) ← AddDeclarable h m "kZero" (Some c);
  '(f, h) ← new_Macro (inside m) h "Foo" fixed_signature false (Some (Some 7));
  '(_, h) ← AddDeclarable h m "Foo" (Some f);
  '(b, h) ← new_Builtin (inside f) h "Bar" kStub variadic_signature false None;
  '(_, h) ← AddDeclarable h f "kZero" (Some b);
  Ok h.

Definition scenario_heap : Heap :=
  match scenario with Ok h => h | _ => [] end.

(** The arena that holds module "M" alone. *)
Definition module_heap : Heap := (new_Module at_root [] "M").2.

(** The arena that holds the generic "Identity" alone, specialized for
    Int32. *)
Definition generic_heap : Heap :=
  match call_AddSpecialization
          (new (OGeneric (Generic_ctor at_root "Identity" (Some 9))) []).2
          0 [Int32] (Some 2) with
  | Ok h => h
  | _ => []
  end.

(** A macro declared outside of every module. *)
Definition orphan_heap : Heap :=
  match new_Macro at_root [] "Foo" fixed_signature false None with
  | Ok (_, h) => h
  | _ => []
  end.

(** A PrototypeInfo on tagged words whose fields all hold the word 0. *)
Definition blank_info : @PrototypeInfo TaggedWords.ops :=
  {| weak_cell := 0%Z : @ObjectPtr TaggedWords.ops;
     prototype_users := 0%Z : @ObjectPtr TaggedWords.ops;
     object_create_map := 0%Z : @MaybeObject TaggedWords.ops;
     registry_slot := 0%Z;
     bit_field := 0%Z |}.

(** ** Further readings of the arena *)

(** The vector registered under a name in the scope at an address; empty
    when the address holds no Scope object. *)
Definition decls_at (h : Heap) (a : addr) (name : string) : list Ptr :=
  match h !! a with
  | Some o =>
      match Object_scope o with
      | Some s => decls s name
      | None => []
      end
  | None => []
  end.

(** The vectors registered under a name along the chain of parents of a
    scope, the root first. *)
Definition along_chain (h : Heap) (this : addr) (name : string) : list Ptr :=
  concat (map (λ b, decls_at h b name)
              (rev (chain (length h) h (Some this)))).

(** The Value, the Callable and the Generic subobjects. *)
Definition Object_value (o : Object) : option Value :=
  match o with
  | OExternConstant e => Some (ExternConstant_base e)
  | OModuleConstant c => Some (ModuleConstant_base c)
  | _ => None
  end.

Definition Object_callable (o : Object) : option Callable :=
  match o with
  | OMacro m => Some (Macro_base m)
  | OBuiltin b => Some (Builtin_base b)
  | ORuntimeFunction r => Some (RuntimeFunction_base r)
  | _ => None
  end.

Definition Object_generic (o : Object) : option Generic :=
  match o with
  | OGeneric g => Some g
  | _ => None
  end.

(** [virtual const char* type_name()]: the override of the class of the
    object. *)
Definition Object_type_name (o : Object) : string :=
  type_name (class_of (Object_kind o)).

(** [Declarable::type_name], which every concrete class overrides. *)
Definition Declarable_type_name : string := "<<unknown>>".

(** One step on the arena: an object of a concrete class is constructed
    under a current scope that is null or a Scope of the arena, or one of
    the non-const methods of the header is called through a pointer and
    returns. *)
Inductive method_call : Heap → Heap → Prop :=
  | method_new ctx h o :
      scope_ptr_ok h (CurrentScope ctx) = true → constructed ctx o →
      method_call h (new o h).2
  | method_AddDeclarable h this name d r h' :
      AddDeclarable h this name d = Ok (r, h') → method_call h h'
  | method_LookupShallow h this name r h' :
      LookupShallow h this name = Ok (r, h') → method_call h h'
  | method_Lookup h this name r h' :
      Lookup h this name = Ok (r, h') → method_call h h'
  | method_set_value h this v h' :
      call_set_value h this v = Ok h' → method_call h h'
  | method_IncrementReturns h this h' :
      call_IncrementReturns_at h this = Ok h' → method_call h h'
  | method_AddSpecialization h this k c h' :
      call_AddSpecialization h this k c = Ok h' → method_call h h'.

(** What a step may change in an object: the Declarable subobject and the
    class stay; a registered vector is extended at its end; a value that is
    set, the type and the name of a Value stay; the name, the signature, the
    flag and the body of a Callable stay; a stored specialization stays. *)
Definition grows (o o' : Object) : Prop :=
  Object_base o' = Object_base o
  ∧ Object_kind o' = Object_kind o
  ∧ (∀ s, Object_scope o = Some s →
       ∃ s', Object_scope o' = Some s'
             ∧ ∀ name, decls s name `prefix_of` decls s' name)
  ∧ (∀ v, Object_value o = Some v →
       ∃ v', Object_value o' = Some v'
             ∧ type_ v' = type_ v ∧ Value_name_ v' = Value_name_ v
             ∧ ∀ x, value_ v = Some x → value_ v' = Some x)
  ∧ (∀ c, Object_callable o = Some c →
       ∃ c', Object_callable o' = Some c'
             ∧ Callable_name_ c' = Callable_name_ c
             ∧ signature_ c' = signature_ c
             ∧ transitioning_ c' = transitioning_ c
             ∧ body_ c' = body_ c)
  ∧ (∀ g, Object_generic o = Some g →
       ∃ g', Object_generic o' = Some g'
             ∧ Generic_name_ g' = Generic_name_ g
             ∧ declaration_ g' = declaration_ g
             ∧ ∀ k c, specializations_ g !! k = Some c →
                      specializations_ g' !! k = Some c).

(** AddDeclarable called on one Scope for each declarable in turn. *)
Definition Scope_AddDeclarables (name : string) (ds : list Ptr) (this : Scope)
  : Scope :=
  fold_left (λ s d, (Scope_AddDeclarable name d s).2) ds this.

(** IncrementReturns called [n] times. *)
Definition IncrementReturns_times (n : nat) (this : Callable) : Callable :=
  Nat.iter n IncrementReturns this.

(** * Properties *)

(** ** Outcomes *)

Lemma bind_Ok_inv {A B} (m : Outcome A) (f : A → Outcome B) (b : B) :
  m ≫= f = Ok b → ∃ a, m = Ok a ∧ f a = Ok b.
Proof. destruct m; simpl; intros E; try discriminate. eauto. Qed.

Lemma DCHECK_Ok_inv (c : bool) (u : ()) : DCHECK c = Ok u → c = true.
Proof. by destruct c. Qed.

Lemma DCHECK_true (c : bool) : c = true → DCHECK c = Ok ().
Proof. by intros ->. Qed.

Lemma DCHECK_false (c : bool) : c = false → DCHECK c = Fatal.
Proof. by intros ->. Qed.

(** ** Vectors and the declarations map *)

Lemma fold_left_push_back {A} (v result : list A) :
  fold_left push_back v result = result ++ v.
Proof.
  revert result. induction v as [|x v IH]; intros result; simpl.
  - by rewrite app_nil_r.
  - rewrite IH. unfold push_back. by rewrite <- app_assoc.
Qed.

Lemma subscript_value (m : gmap string (list Ptr)) (name : string) :
  (subscript m name).1 = default [] (m !! name).
Proof. unfold subscript. by destruct (m !! name). Qed.

Lemma subscript_lookup (m : gmap string (list Ptr)) (name name' : string) :
  default [] ((subscript m name).2 !! name') = default [] (m !! name').
Proof.
  unfold subscript. destruct (m !! name) eqn:E; simpl; [done|].
  destruct (decide (name = name')) as [<-|Hne].
  - by rewrite lookup_insert_eq, E.
  - by rewrite lookup_insert_ne.
Qed.

Lemma Scope_LookupShallow_value (name : string) (s : Scope) :
  (Scope_LookupShallow name s).1 = decls s name.
Proof.
  unfold Scope_LookupShallow, decls.
  rewrite <- subscript_value. by destruct (subscript _ _).
Qed.

Lemma Scope_LookupShallow_base (name : string) (s : Scope) :
  Scope_base (Scope_LookupShallow name s).2 = Scope_base s.
Proof. unfold Scope_LookupShallow. by destruct (subscript _ _). Qed.

Lemma Scope_LookupShallow_decls (name name' : string) (s : Scope) :
  decls (Scope_LookupShallow name s).2 name' = decls s name'.
Proof.
  unfold Scope_LookupShallow, decls.
  rewrite <- (subscript_lookup (declarations_ s) name name').
  by destruct (subscript _ _).
Qed.

Lemma Scope_AddDeclarable_value (name : string) (d : Ptr) (s : Scope) :
  (Scope_AddDeclarable name d s).1 = d.
Proof. unfold Scope_AddDeclarable. by destruct (subscript _ _). Qed.

Lemma Scope_AddDeclarable_base (name : string) (d : Ptr) (s : Scope) :
  Scope_base (Scope_AddDeclarable name d s).2 = Scope_base s.
Proof. unfold Scope_AddDeclarable. by destruct (subscript _ _). Qed.

Lemma Scope_AddDeclarable_decls (name name' : string) (d : Ptr) (s : Scope) :
  decls (Scope_AddDeclarable name d s).2 name' =
  if decide (name = name') then decls s name ++ [d] else decls s name'.
Proof.
  unfold Scope_AddDeclarable, decls.
  pose proof (subscript_value (declarations_ s) name) as Hv.
  pose proof (subscript_lookup (declarations_ s) name name') as Hl.
  destruct (subscript _ _) as [v m]; simpl in *.
  destruct (decide (name = name')) as [<-|Hne].
  - rewrite lookup_insert_eq. simpl. unfold push_back. by rewrite Hv.
  - by rewrite lookup_insert_ne.
Qed.

(** ** Subobjects *)

Lemma Object_scope_base (o : Object) (s : Scope) :
  Object_scope o = Some s → Object_base o = Scope_base s.
Proof. destruct o; simpl; intros [= <-]; done. Qed.

Lemma Object_with_scope_scope (o : Object) (s s' : Scope) :
  Object_scope o = Some s → Object_scope (Object_with_scope s' o) = Some s'.
Proof. destruct o; simpl; intros [= <-]; done. Qed.

Lemma Object_with_scope_kind (o : Object) (s' : Scope) :
  Object_kind (Object_with_scope s' o) = Object_kind o.
Proof. by destruct o. Qed.

Lemma Object_with_scope_id (o : Object) (s : Scope) :
  Object_scope o = Some s → Object_with_scope s o = o.
Proof.
  destruct o as [[]|[[]]|[[]]|[[]]| | | |]; simpl; intros [= <-]; done.
Qed.

(** ** Arenas that Lookup cannot tell apart *)

Lemma scope_sim_refl (o : Object) : scope_sim o o.
Proof.
  repeat split. destruct (Object_scope o); constructor; done.
Qed.

Lemma scope_sim_trans (o1 o2 o3 : Object) :
  scope_sim o1 o2 → scope_sim o2 o3 → scope_sim o1 o3.
Proof.
  intros (Hb1 & Hk1 & Hs1) (Hb2 & Hk2 & Hs2).
  repeat split; [congruence | congruence |].
  destruct Hs1 as [s1 s2 H12|]; inversion Hs2 as [s2' s3 H23|]; subst;
    constructor.
  intros name. by rewrite H12.
Qed.

Lemma heap_sim_refl (h : Heap) : heap_sim h h.
Proof. apply Forall2_same_length_lookup. split; [done|].
  intros i x y Hx Hy. rewrite Hx in Hy. injection Hy as <-. apply scope_sim_refl.
Qed.

Lemma heap_sim_trans (h1 h2 h3 : Heap) :
  heap_sim h1 h2 → heap_sim h2 h3 → heap_sim h1 h3.
Proof.
  unfold heap_sim. intros H12. revert h3.
  induction H12 as [|o1 o2 h1 h2 Ho H12 IH]; intros h3 H23;
    inversion H23; subst; constructor; eauto using scope_sim_trans.
Qed.

Lemma heap_sim_length (h h' : Heap) : heap_sim h h' → length h = length h'.
Proof. apply Forall2_length. Qed.

Lemma heap_sim_lookup (h h' : Heap) (a : addr) (o : Object) :
  heap_sim h h' → h !! a = Some o → ∃ o', h' !! a = Some o' ∧ scope_sim o o'.
Proof. intros Hs Ho. eapply Forall2_lookup_l in Hs; eauto. Qed.

Lemma scope_sim_scope (o o' : Object) (s : Scope) :
  scope_sim o o' → Object_scope o = Some s →
  ∃ s', Object_scope o' = Some s' ∧ Scope_base s' = Scope_base s
        ∧ ∀ name, decls s' name = decls s name.
Proof.
  intros (Hb & _ & Hs) Ho. rewrite Ho in Hs.
  inversion Hs as [s0 s' Hd E1 E2|]; subst.
  exists s'. split; [done|]. split.
  - symmetry in E2. apply Object_scope_base in E2, Ho. congruence.
  - intros name. by rewrite Hd.
Qed.

Lemma heap_sim_wf (h h' : Heap) : heap_sim h h' → heap_wf h → heap_wf h'.
Proof.
  intros Hs Hwf a o' Ho'.
  destruct (Forall2_lookup_r _ _ _ _ _ Hs Ho') as (o & Ho & Hoo').
  destruct (Hwf a o Ho) as [Hp Hk].
  destruct Hoo' as (Hb & Hkk & Hsc).
  split.
  - unfold parent_ok in *. rewrite <- Hb.
    destruct (ParentScope (Object_base o)) as [p|]; [|done].
    apply andb_true_iff in Hp as [Hlt Hp]. apply andb_true_iff. split; [done|].
    destruct (h !! p) as [po|] eqn:Epo; [|done].
    destruct (heap_sim_lookup _ _ _ _ Hs Epo) as (po' & -> & (_ & _ & Hs')).
    destruct Hs'; [done | discriminate].
  - unfold kind_ok in *. by rewrite <- Hb, <- Hkk.
Qed.

Lemma store_scope_sim (h : Heap) (a : addr) (o : Object) (s s' : Scope) :
  h !! a = Some o → Object_scope o = Some s →
  Scope_base s' = Scope_base s → (∀ name, decls s name = decls s' name) →
  heap_sim h (store_scope h a s').
Proof.
  intros Ho Hs Hb Hd. unfold store_scope. rewrite Ho.
  apply Forall2_same_length_lookup. split; [by rewrite length_insert|].
  intros i x y Hx Hy. destruct (decide (a = i)) as [<-|Hne].
  - rewrite list_lookup_insert_eq in Hy by (eapply lookup_lt_Some; eauto).
    rewrite Ho in Hx. injection Hx as <-. injection Hy as <-.
    split; [|split].
    + rewrite (Object_scope_base _ _ Hs).
      rewrite (Object_scope_base _ s' (Object_with_scope_scope _ _ _ Hs)).
      done.
    + by rewrite Object_with_scope_kind.
    + rewrite Hs, (Object_with_scope_scope _ _ _ Hs). by constructor.
  - rewrite list_lookup_insert_ne in Hy by done.
    rewrite Hx in Hy. injection Hy as <-. apply scope_sim_refl.
Qed.

(** ** Scope methods through a pointer *)

Lemma deref_scope_Some (h : Heap) (a : addr) (o : Object) (s : Scope) :
  h !! a = Some o → Object_scope o = Some s →
  deref_scope h (Some a) = Ok s.
Proof. intros Ho Hs. unfold deref_scope, deref. rewrite Ho. simpl. by rewrite Hs. Qed.

Lemma deref_scope_Ok_inv (h : Heap) (a : addr) (s : Scope) :
  deref_scope h (Some a) = Ok s →
  ∃ o, h !! a = Some o ∧ Object_scope o = Some s.
Proof.
  unfold deref_scope, deref. destruct (h !! a) as [o|]; simpl; [|done].
  destruct (Object_scope o) eqn:E; intros [= <-]. eauto.
Qed.

Lemma LookupShallow_spec (h : Heap) (a : addr) (o : Object) (s : Scope)
  (name : string) :
  h !! a = Some o → Object_scope o = Some s →
  ∃ h', LookupShallow h a name = Ok (decls s name, h') ∧ heap_sim h h'.
Proof.
  intros Ho Hs. unfold LookupShallow.
  rewrite (deref_scope_Some _ _ _ _ Ho Hs). simpl.
  pose proof (Scope_LookupShallow_value name s) as Hv.
  pose proof (Scope_LookupShallow_base name s) as Hb.
  pose proof (λ n, Scope_LookupShallow_decls name n s) as Hd.
  destruct (Scope_LookupShallow name s) as [v s']; simpl in *. subst v.
  eexists. split; [done|].
  eapply store_scope_sim; eauto.
Qed.

Lemma AddDeclarable_spec (h : Heap) (a : addr) (o : Object) (s : Scope)
  (name : string) (d : Ptr) :
  h !! a = Some o → Object_scope o = Some s →
  ∃ s', AddDeclarable h a name d
          = Ok (d, <[a := Object_with_scope s' o]> h)
        ∧ Scope_base s' = Scope_base s
        ∧ ∀ name', decls s' name' =
            if decide (name = name') then decls s name ++ [d]
            else decls s name'.
Proof.
  intros Ho Hs. unfold AddDeclarable.
  rewrite (deref_scope_Some _ _ _ _ Ho Hs). simpl.
  pose proof (Scope_AddDeclarable_value name d s) as Hv.
  pose proof (Scope_AddDeclarable_base name d s) as Hb.
  pose proof (λ n, Scope_AddDeclarable_decls name n d s) as Hd.
  destruct (Scope_AddDeclarable name d s) as [v s']; simpl in *. subst v.
  exists s'. unfold store_scope. rewrite Ho. done.
Qed.

(** ** Scope::Lookup *)

(** More depth does not change a result. *)
Lemma Lookup_rec_mono (depth depth' : nat) (h : Heap) (this : addr)
  (name : string) (x : list Ptr * Heap) :
  Lookup_rec depth h this name = Ok x → depth ≤ depth' →
  Lookup_rec depth' h this name = Ok x.
Proof.
  revert depth' this x.
  induction depth as [|depth IH]; intros depth' this x; simpl; [done|].
  intros E Hle. destruct depth' as [|depth']; [lia|]. simpl.
  destruct (deref_scope h (Some this)) as [s| | | |]; simpl in *; try done.
  destruct (ParentScope (Scope_base s)) as [parent|]; [|done].
  apply bind_Ok_inv in E as (y & Ey & E).
  rewrite (IH depth' parent y Ey) by lia. done.
Qed.

(** On a well-formed arena Lookup returns; it leaves an arena that Lookup
    cannot tell from the one it started in; and its result is the result for
    the parent followed by the scope's own vector. *)
Lemma Lookup_rec_ok (h : Heap) (name : string) :
  heap_wf h →
  ∀ (depth : nat) (this : addr) (o : Object) (s : Scope),
    this < depth → h !! this = Some o → Object_scope o = Some s →
    ∃ r h', Lookup_rec depth h this name = Ok (r, h') ∧ heap_sim h h'
      ∧ match ParentScope (Scope_base s) with
        | Some parent =>
            ∃ rp hp, Lookup_rec (pred depth) h parent name = Ok (rp, hp)
                     ∧ r = rp ++ decls s name
        | None => r = decls s name
        end.
Proof.
  intros Hwf. induction depth as [|depth IH]; intros this o s Hlt Ho Hs; [lia|].
  simpl. rewrite (deref_scope_Some _ _ _ _ Ho Hs). simpl.
  destruct (Hwf this o Ho) as [Hp _]. unfold parent_ok in Hp.
  rewrite (Object_scope_base _ _ Hs) in Hp.
  destruct (ParentScope (Scope_base s)) as [parent|].
  - apply andb_true_iff in Hp as [Hpl Hp]. apply bool_decide_eq_true in Hpl.
    destruct (h !! parent) as [po|] eqn:Epo; [|done].
    destruct (Object_scope po) as [ps|] eqn:Eps; [|done].
    destruct (IH parent po ps ltac:(lia) Epo Eps) as (rp & h1 & E1 & Hs1 & _).
    rewrite E1. simpl.
    destruct (heap_sim_lookup _ _ _ _ Hs1 Ho) as (o1 & Ho1 & Hoo1).
    destruct (scope_sim_scope _ _ _ Hoo1 Hs) as (s1 & Hs1' & _ & Hd1).
    destruct (LookupShallow_spec h1 this o1 s1 name Ho1 Hs1') as (h2 & E2 & Hs2).
    rewrite E2. simpl. rewrite fold_left_push_back, Hd1.
    eexists _, _. split; [done|]. split; [by eapply heap_sim_trans|].
    eauto.
  - simpl.
    destruct (LookupShallow_spec h this o s name Ho Hs) as (h2 & E2 & Hs2).
    rewrite E2. simpl. rewrite fold_left_push_back. simpl.
    eexists _, _. split; [done|]. split; done.
Qed.

(** ** The arena stays well formed *)

Lemma heap_wfb_wf (h : Heap) : heap_wfb h = true → heap_wf h.
Proof.
  unfold heap_wfb. rewrite forallb_forall. intros H a o Ho.
  specialize (H (a, o)). simpl in H.
  apply andb_true_iff, H, list_elem_of_In, list_elem_of_lookup.
  exists a. by rewrite list_lookup_imap, Ho.
Qed.

Lemma parent_ok_app (h : Heap) (a : addr) (o x : Object) :
  parent_ok h a o = true → parent_ok (h ++ [x]) a o = true.
Proof.
  unfold parent_ok. destruct (ParentScope (Object_base o)) as [p|]; [|done].
  intros [Hlt Hp]%andb_true_iff. apply andb_true_iff. split; [done|].
  destruct (h !! p) as [po|] eqn:E; [|done].
  by rewrite (lookup_app_l_Some _ _ _ _ E).
Qed.

Lemma new_wf (h : Heap) (o : Object) :
  heap_wf h → scope_ptr_ok h (ParentScope (Object_base o)) = true →
  kind_ok o = true → heap_wf (new o h).2.
Proof.
  intros Hwf Hp Hk a x Hx. unfold new in *. simpl in *.
  apply lookup_app_Some in Hx as [Hx|[Hge Hx]].
  - destruct (Hwf a x Hx) as [H1 H2]. split; [|done]. by apply parent_ok_app.
  - apply list_lookup_singleton_Some in Hx as [Ha ->].
    split; [|done]. unfold parent_ok.
    destruct (ParentScope (Object_base x)) as [p|]; [|done].
    simpl in Hp. destruct (h !! p) as [po|] eqn:E; [|done].
    rewrite (lookup_app_l_Some _ _ _ _ E), Hp.
    apply lookup_lt_Some in E. apply andb_true_iff. split; [|done].
    apply bool_decide_eq_true. lia.
Qed.

Lemma AddDeclarable_wf (h h' : Heap) (a : addr) (name : string) (d d' : Ptr) :
  heap_wf h → AddDeclarable h a name d = Ok (d', h') → heap_wf h'.
Proof.
  intros Hwf E. unfold AddDeclarable in E.
  apply bind_Ok_inv in E as (s & Es & E).
  apply deref_scope_Ok_inv in Es as (o & Ho & Hs).
  pose proof (Scope_AddDeclarable_base name d s) as Hb.
  destruct (Scope_AddDeclarable name d s) as [v s']; simpl in *.
  injection E as <- <-. unfold store_scope. rewrite Ho.
  intros b x Hx. destruct (decide (a = b)) as [<-|Hne].
  - rewrite list_lookup_insert_eq in Hx by (eapply lookup_lt_Some; eauto).
    injection Hx as <-. destruct (Hwf a o Ho) as [H1 H2].
    pose proof (Object_with_scope_scope _ _ s' Hs) as Hs'.
    unfold parent_ok, kind_ok in *.
    rewrite (Object_scope_base _ _ Hs'), Hb, <- (Object_scope_base _ _ Hs).
    rewrite Object_with_scope_kind. split; [|done].
    destruct (ParentScope (Object_base o)) as [p|]; [|done].
    apply andb_true_iff in H1 as [Hlt H1]. apply andb_true_iff.
    split; [done|]. apply bool_decide_eq_true in Hlt.
    rewrite list_lookup_insert_ne by lia. done.
  - rewrite list_lookup_insert_ne in Hx by done.
    destruct (Hwf b x Hx) as [H1 H2]. split; [|done].
    unfold parent_ok in *.
    destruct (ParentScope (Object_base x)) as [p|]; [|done].
    apply andb_true_iff in H1 as [Hlt H1]. apply andb_true_iff.
    split; [done|]. destruct (decide (a = p)) as [<-|Hne'].
    + rewrite list_lookup_insert_eq by (eapply lookup_lt_Some; eauto).
      by rewrite (Object_with_scope_scope _ _ s' Hs).
    + by rewrite list_lookup_insert_ne.
Qed.

(** ** Lookup is the parent's Lookup followed by LookupShallow *)

(** C1. On a well-formed arena, for every scope [this] and every name,
    [Lookup] returns, and its result is the result of [Lookup] for the parent
    scope (nothing when there is no parent) followed by the scope's own
    declarables for the name, the result of [LookupShallow]; so the entries
    of the parent come first and the Lookup of a root scope is its
    LookupShallow.  The arena that Lookup leaves cannot be told from the
    first by any Lookup. *)
Theorem Lookup_parent_then_local (h : Heap) (this : addr) (name : string) :
  heap_wf h → scope_ptr_ok h (Some this) = true →
  ∃ r h' rs hs,
    Lookup h this name = Ok (r, h')
    ∧ LookupShallow h this name = Ok (rs, hs)
    ∧ heap_sim h h'
    ∧ match parent_of h this with
      | Some parent =>
          ∃ rp hp, Lookup h parent name = Ok (rp, hp) ∧ r = rp ++ rs
      | None => r = rs
      end.
Proof.
  intros Hwf Hok. unfold scope_ptr_ok, parent_of in *.
  destruct (h !! this) as [o|] eqn:Ho; [|done].
  destruct (Object_scope o) as [s|] eqn:Hs; [|done].
  pose proof (lookup_lt_Some _ _ _ Ho) as Hlt.
  destruct (Lookup_rec_ok h name Hwf (length h) this o s Hlt Ho Hs)
    as (r & h' & E & Hsim & Hr).
  destruct (LookupShallow_spec h this o s name Ho Hs) as (hs & Es & _).
  exists r, h', (decls s name), hs. repeat split; try done.
  rewrite (Object_scope_base _ _ Hs).
  destruct (ParentScope (Scope_base s)) as [parent|]; [|done].
  destruct Hr as (rp & hp & Ep & ->). exists rp, hp. split; [|done].
  eapply Lookup_rec_mono; [exact Ep | lia].
Qed.

Lemma Lookup_parent_then_local_witness :
  ∃ h' hs hp,
    Lookup scenario_heap 2 "kZero" = Ok ([Some 1; Some 3], h')
    ∧ LookupShallow scenario_heap 2 "kZero" = Ok ([Some 3], hs)
    ∧ Lookup scenario_heap 0 "kZero" = Ok ([Some 1], hp).
Proof.
  destruct (Lookup_parent_then_local scenario_heap 2 "kZero")
    as (r & h' & rs & hs & E1 & E2 & _ & E3).
  - apply heap_wfb_wf. vm_compute. reflexivity.
  - vm_compute. reflexivity.
  - assert (parent_of scenario_heap 2 = Some 0) as Hp
      by (vm_compute; reflexivity).
    rewrite Hp in E3. destruct E3 as (rp & hp & E3 & E4).
    assert (rs = [Some 3]) as Hrs.
    { pose proof E2 as E. vm_compute in E. by injection E as <- _. }
    assert (rp = [Some 1]) as Hrp.
    { pose proof E3 as E. vm_compute in E. by injection E as <- _. }
    subst r rs rp. exists h', hs, hp. split_and!; assumption.
Defined.

(** ** Casts *)

Lemma Is_class_of (T : Kind) (d : Declarable) :
  Is (class_of T) d = bool_decide (kind d = T).
Proof. by destruct T. Qed.

Lemma kind_ok_instance_of (o : Object) (T : Kind) :
  kind_ok o = true → kind (Object_base o) = T →
  instance_of (class_of T) o = true.
Proof.
  unfold kind_ok. intros Hk%bool_decide_eq_true <-. rewrite Hk.
  by destruct o.
Qed.

(** C3. For every declarable [d] of the arena and every concrete kind [T]:
    the strict cast to the class of [T] succeeds exactly when the kind of
    [d] is [T], and then returns the pointer it was given, to an object
    whose class is that of [T]; on any other kind it is a failed check, not
    a result.  DynamicCast returns the null pointer on another kind and on a
    null input, and the pointer itself on kind [T]; it returns in all three
    cases. *)
Theorem cast_strict_DynamicCast_absent (h : Heap) (a : addr) (d : Object)
  (T : Kind) :
  h !! a = Some d →
  (cast (class_of T) h (Some a) = Ok (Some a) ↔ kind (Object_base d) = T)
  ∧ (kind (Object_base d) ≠ T → cast (class_of T) h (Some a) = Fatal)
  ∧ (∀ r, cast (class_of T) h (Some a) = Ok r →
          r = Some a
          ∧ (kind_ok d = true → instance_of (class_of T) d = true))
  ∧ (kind (Object_base d) ≠ T →
     DynamicCast (class_of T) h (Some a) = Ok nullptr)
  ∧ (kind (Object_base d) = T →
     DynamicCast (class_of T) h (Some a) = Ok (Some a))
  ∧ DynamicCast (class_of T) h nullptr = Ok nullptr.
Proof.
  intros Hd. unfold cast, DynamicCast, deref. rewrite Hd. simpl.
  rewrite Is_class_of.
  destruct (decide (kind (Object_base d) = T)) as [E|NE].
  - rewrite (bool_decide_eq_true_2 _ E). simpl.
    split_and!; try done.
    intros r [= <-]. split; [done|]. intros Hk. by apply kind_ok_instance_of.
  - rewrite (bool_decide_eq_false_2 _ NE). simpl.
    split_and!; try done.
Qed.

Lemma cast_strict_DynamicCast_absent_witness :
  cast class_Macro scenario_heap (Some 2) = Ok (Some 2)
  ∧ cast class_Builtin scenario_heap (Some 2) = Fatal
  ∧ DynamicCast class_Builtin scenario_heap (Some 2) = Ok nullptr
  ∧ DynamicCast class_Macro scenario_heap (Some 2) = Ok (Some 2).
Proof.
  assert (∃ d, scenario_heap !! 2 = Some d
               ∧ kind (Object_base d) = kMacro) as (d & Hd & Hk)
    by (eexists; split; vm_compute; reflexivity).
  destruct (cast_strict_DynamicCast_absent scenario_heap 2 d kMacro Hd)
    as (H1 & _ & _ & _ & H5 & _).
  destruct (cast_strict_DynamicCast_absent scenario_heap 2 d kBuiltin Hd)
    as (_ & H2 & _ & H4 & _ & _).
  split; [by apply H1|]. split; [apply H2; by rewrite Hk|].
  split; [apply H4; by rewrite Hk|]. by apply H5.
Defined.

(** ** Values *)

(** C4. For every Value on which set_value has not been called and every
    [v]: the call [set_value(v)] returns, [value()] then returns [v], and a
    second call of set_value, with any value, is a failed check.  The
    constructor of ExternConstant makes that one call itself: the constant
    holds its value from construction on, and any later set_value on it is a
    failed check. *)
Theorem set_value_once (this : Value) (v : VisitResult) :
  value_ this = None →
  (∃ this', set_value v this = Ok this'
            ∧ value this' = Ok v
            ∧ ∀ w, set_value w this' = Fatal)
  ∧ (∀ ctx name type s,
       ∃ e, ExternConstant_ctor ctx name type s = Ok e
            ∧ value (ExternConstant_base e)
              = Ok {| vr_type := type; vr_value := s |}
            ∧ ∀ w, set_value w (ExternConstant_base e) = Fatal).
Proof.
  intros Hnone. split.
  - unfold set_value. rewrite Hnone. simpl. eexists. split; [done|]. done.
  - intros ctx name type s. eexists. split; [done|]. done.
Qed.

Lemma set_value_once_witness :
  ∃ this',
    set_value {| vr_type := Int32; vr_value := "0" |}
      (ModuleConstant_base (ModuleConstant_ctor at_root "kZero" Int32 (Some 5)))
    = Ok this'
    ∧ value this' = Ok {| vr_type := Int32; vr_value := "0" |}
    ∧ ∀ w, set_value w this' = Fatal.
Proof.
  exact (proj1 (set_value_once
    (ModuleConstant_base (ModuleConstant_ctor at_root "kZero" Int32 (Some 5)))
    {| vr_type := Int32; vr_value := "0" |} eq_refl)).
Defined.

Lemma set_values_Ok_inv (l : list VisitResult) (this this' : Value) :
  set_values l this = Ok this' →
  (l = [] ∧ this' = this)
  ∨ (∃ x, l = [x] ∧ value_ this = None ∧ value_ this' = Some x).
Proof.
  destruct l as [|x l]; simpl; [intros [= <-]; by left|].
  intros E. right. apply bind_Ok_inv in E as (v1 & E1 & E).
  unfold set_value in E1. apply bind_Ok_inv in E1 as (u & Eu & E1).
  apply DCHECK_Ok_inv in Eu. injection E1 as <-.
  destruct (value_ this); [done|].
  destruct l as [|y l]; simpl in E; [injection E as <-; eauto|].
  discriminate.
Qed.

(** C8. [value()] on a Value whose slot is empty dereferences the empty
    optional and has no defined result; a ModuleConstant is in that state
    from its construction; and on a Value that went through any sequence of
    set_value calls that returned, [value()] returns exactly when the
    sequence is not empty, that is when set_value has been called. *)
Theorem value_needs_set_value :
  (∀ this, value_ this = None → value this = Undefined EmptyOptional)
  ∧ (∀ ctx name type body,
       value (ModuleConstant_base (ModuleConstant_ctor ctx name type body))
       = Undefined EmptyOptional)
  ∧ (∀ ctx k type name l this,
       set_values l (Value_ctor ctx k type name) = Ok this →
       (is_Ok (value this) = true ↔ l ≠ [])).
Proof.
  split; [|split].
  - intros this H. unfold value. by rewrite H.
  - done.
  - intros ctx k type name l this E.
    apply set_values_Ok_inv in E as [[-> ->]|(x & -> & _ & Hx)].
    + done.
    + unfold value. rewrite Hx. done.
Qed.

Lemma value_needs_set_value_witness :
  is_Ok (value (Value_ctor at_root kModuleConstant Int32 "kZero")) = false
  ∧ ∃ this,
      set_values [{| vr_type := Int32; vr_value := "0" |}]
        (Value_ctor at_root kModuleConstant Int32 "kZero") = Ok this
      ∧ is_Ok (value this) = true.
Proof.
  split; [reflexivity|]. eexists. split; [reflexivity|].
  apply (proj2 (proj2 value_needs_set_value)
           at_root kModuleConstant Int32 "kZero"
           [{| vr_type := Int32; vr_value := "0" |}] _ eq_refl).
  discriminate.
Defined.

(** ** Callables *)

Lemma Callable_ctor_Ok_inv (ctx : Context) (k : Kind) (name : string)
  (sig : Signature) (tr : bool) (body : option Ptr) (c : Callable) :
  Callable_ctor ctx k name sig tr body = Ok c →
  body ≠ Some nullptr
  ∧ c = {| Callable_base := Scope_ctor ctx k;
           Callable_name_ := name;
           signature_ := sig;
           transitioning_ := tr;
           returns_ := 0%N;
           body_ := body |}.
Proof.
  unfold Callable_ctor. intros E. apply bind_Ok_inv in E as (u & Eu & E).
  apply DCHECK_Ok_inv in Eu. injection E as <-. split; [|done].
  intros ->. discriminate.
Qed.

Lemma Callable_ctor_Ok (ctx : Context) (k : Kind) (name : string)
  (sig : Signature) (tr : bool) (body : option Ptr) :
  body ≠ Some nullptr →
  Callable_ctor ctx k name sig tr body
  = Ok {| Callable_base := Scope_ctor ctx k;
          Callable_name_ := name;
          signature_ := sig;
          transitioning_ := tr;
          returns_ := 0%N;
          body_ := body |}.
Proof. unfold Callable_ctor. by destruct body as [[|]|]. Qed.

Lemma Callable_call_body (call : CallableCall) (this : Callable) :
  body_ (Callable_call call this) = body_ this.
Proof. by destruct call. Qed.

Lemma Callable_calls_body (calls : list CallableCall) (this : Callable) :
  body_ (Callable_calls calls this) = body_ this.
Proof.
  unfold Callable_calls. revert this.
  induction calls as [|call calls IH]; intros this; simpl; [done|].
  by rewrite IH, Callable_call_body.
Qed.

Lemma IsExternal_body (this : Callable) :
  IsExternal this = true ↔ body_ this = None.
Proof. unfold IsExternal. by destruct (body_ this). Qed.

(** C7. For every Callable, whatever was called on it since its
    construction, [IsExternal()] is true exactly when the constructor was
    given no body: so for the Callable base and for a Macro and a Builtin.
    The constructor of RuntimeFunction always returns and passes no body, so
    [IsExternal()] is true for every RuntimeFunction. *)
Theorem IsExternal_iff_no_body (ctx : Context) (name : string)
  (sig : Signature) (tr : bool) (calls : list CallableCall) :
  (∀ k body c,
     Callable_ctor ctx k name sig tr body = Ok c →
     (IsExternal (Callable_calls calls c) = true ↔ body = None))
  ∧ (∀ body m,
       Macro_ctor ctx name sig tr body = Ok m →
       (IsExternal (Callable_calls calls (Macro_base m)) = true
        ↔ body = None))
  ∧ (∀ bk body b,
       Builtin_ctor ctx name bk sig tr body = Ok b →
       (IsExternal (Callable_calls calls (Builtin_base b)) = true
        ↔ body = None))
  ∧ (∃ r, RuntimeFunction_ctor ctx name sig tr = Ok r
          ∧ IsExternal (Callable_calls calls (RuntimeFunction_base r)) = true).
Proof.
  assert (∀ k body c,
     Callable_ctor ctx k name sig tr body = Ok c →
     (IsExternal (Callable_calls calls c) = true ↔ body = None)) as Hbase.
  { intros k body c [_ ->]%Callable_ctor_Ok_inv.
    by rewrite IsExternal_body, Callable_calls_body. }
  split_and!.
  - exact Hbase.
  - intros body m E. unfold Macro_ctor in E.
    apply bind_Ok_inv in E as (c & Ec & E).
    apply bind_Ok_inv in E as (u & _ & E). injection E as <-. simpl. eauto.
  - intros bk body b E. unfold Builtin_ctor in E.
    apply bind_Ok_inv in E as (c & Ec & E). injection E as <-. simpl. eauto.
  - eexists. split; [reflexivity|]. simpl.
    by rewrite IsExternal_body, Callable_calls_body.
Qed.

Lemma IsExternal_iff_no_body_witness :
  ∃ b, Builtin_ctor at_root "Bar" kStub fixed_signature false (Some (Some 7))
       = Ok b
       ∧ IsExternal
           (Callable_calls [call_IncrementReturns; call_LookupShallow "x"]
              (Builtin_base b)) = false.
Proof.
  eexists. split; [reflexivity|].
  apply not_true_is_false. intros H.
  by apply (proj1 (proj2 (proj2 (IsExternal_iff_no_body at_root "Bar"
              fixed_signature false
              [call_IncrementReturns; call_LookupShallow "x"])))
            kStub (Some (Some 7)) _ eq_refl) in H.
Defined.

(** C6. Constructing a Macro whose signature's parameter list is marked
    variadic ends in the declaration error of ReportError, not in a failed
    check, and constructing a Builtin or a RuntimeFunction with the same
    signature returns the object.  This holds for every body the Callable
    constructor admits, one that is absent or a non-null statement, which
    its [DCHECK(!body || *body)] requires of every caller. *)
Theorem Macro_rejects_varargs (ctx : Context) (name : string)
  (sig : Signature) (tr : bool) (body : option Ptr) (bk : BuiltinKind) :
  body ≠ Some nullptr →
  (var_args (parameter_types sig) = true →
   Macro_ctor ctx name sig tr body
   = Error "Varargs are not supported for macros.")
  ∧ (∃ b, Builtin_ctor ctx name bk sig tr body = Ok b
          ∧ signature (Builtin_base b) = sig
          ∧ body_ (Builtin_base b) = body)
  ∧ (∃ r, RuntimeFunction_ctor ctx name sig tr = Ok r
          ∧ signature (RuntimeFunction_base r) = sig).
Proof.
  intros Hbody. unfold Macro_ctor, Builtin_ctor, RuntimeFunction_ctor.
  rewrite !Callable_ctor_Ok by done. simpl.
  split_and!.
  - by intros ->.
  - eexists. split_and!; done.
  - eexists. split_and!; done.
Qed.

Lemma Macro_rejects_varargs_witness :
  Macro_ctor at_root "Foo" variadic_signature false (Some (Some 7))
  = Error "Varargs are not supported for macros."
  ∧ is_Ok (Builtin_ctor at_root "Foo" kVarArgsJavaScript variadic_signature
             false (Some (Some 7))) = true
  ∧ is_Ok (RuntimeFunction_ctor at_root "Foo" variadic_signature false) = true.
Proof.
  destruct (Macro_rejects_varargs at_root "Foo" variadic_signature false
              (Some (Some 7)) kVarArgsJavaScript ltac:(discriminate))
    as (H1 & (b & -> & _) & (r & -> & _)).
  split; [apply H1; reflexivity|]. split; reflexivity.
Defined.

(** ** Generics *)

Lemma AddSpecialization_Ok_inv (k : TypeVector) (c : Ptr) (g g' : Generic) :
  AddSpecialization k c g = Ok g' →
  specializations_ g !! k = None
  ∧ specializations_ g' = <[k := c]> (specializations_ g).
Proof.
  unfold AddSpecialization, DCHECK_EQ, count. intros E.
  apply bind_Ok_inv in E as (u & Eu & E). apply DCHECK_Ok_inv in Eu.
  injection E as <-. simpl. split; [|done].
  destruct (specializations_ g !! k); [done|done].
Qed.

Lemma AddSpecialization_fresh (k : TypeVector) (c : Ptr) (g : Generic) :
  specializations_ g !! k = None →
  ∃ g', AddSpecialization k c g = Ok g'
        ∧ specializations_ g' = <[k := c]> (specializations_ g).
Proof.
  intros H. unfold AddSpecialization, DCHECK_EQ, count. rewrite H. simpl.
  eexists. split; done.
Qed.

Lemma AddSpecialization_again (k : TypeVector) (c : Ptr) (g : Generic) :
  is_Some (specializations_ g !! k) → AddSpecialization k c g = Fatal.
Proof.
  intros [x H]. unfold AddSpecialization, DCHECK_EQ, count. by rewrite H.
Qed.

Lemma AddSpecializations_other (l : list (TypeVector * Ptr)) (g g' : Generic)
  (k : TypeVector) :
  AddSpecializations l g = Ok g' → k ∉ l.*1 →
  GetSpecialization k g' = GetSpecialization k g.
Proof.
  revert g. induction l as [|[k1 c1] l IH]; intros g; simpl.
  - by intros [= <-].
  - intros E Hk. apply bind_Ok_inv in E as (g1 & E1 & E).
    apply not_elem_of_cons in Hk as [Hne Hk].
    rewrite (IH g1 E Hk). unfold GetSpecialization.
    apply AddSpecialization_Ok_inv in E1 as [_ ->].
    by rewrite lookup_insert_ne.
Qed.

(** C2. For every Generic [g], key vector [k] and callable [c]:
    GetSpecialization(k) is absent on the Generic as constructed and stays
    absent through any AddSpecialization calls with other keys; when it is
    absent, AddSpecialization(k, c) returns and GetSpecialization(k) is then
    exactly [c], the other keys being as before; AddSpecialization with a
    key that is already stored, so any second one with [k], is a failed
    check; and a vector that lists the same types in the same order as [k]
    finds the entry of [k]. *)
Theorem specialization_cache (g : Generic) (k : TypeVector) (c : Ptr) :
  (∀ ctx name decl l g',
     AddSpecializations l (Generic_ctor ctx name decl) = Ok g' →
     k ∉ l.*1 → GetSpecialization k g' = None)
  ∧ (GetSpecialization k g = None →
     ∃ g', AddSpecialization k c g = Ok g'
           ∧ GetSpecialization k g' = Some c
           ∧ (∀ c', AddSpecialization k c' g' = Fatal)
           ∧ (∀ k', k' ≠ k →
                    GetSpecialization k' g' = GetSpecialization k' g)
           ∧ (∀ k', (∀ i : nat, k' !! i = k !! i) →
                    GetSpecialization k' g' = Some c))
  ∧ (is_Some (GetSpecialization k g) → AddSpecialization k c g = Fatal).
Proof.
  split_and!.
  - intros ctx name decl l g' E Hk.
    by rewrite (AddSpecializations_other _ _ _ _ E Hk).
  - unfold GetSpecialization. intros Hnone.
    destruct (AddSpecialization_fresh k c g Hnone) as (g' & E & Hg').
    exists g'. split_and!; try done.
    + by rewrite Hg', lookup_insert_eq.
    + intros c'. apply AddSpecialization_again.
      by rewrite Hg', lookup_insert_eq.
    + intros k' Hne. by rewrite Hg', lookup_insert_ne.
    + intros k' Hsame. apply list_eq in Hsame as ->.
      by rewrite Hg', lookup_insert_eq.
  - apply AddSpecialization_again.
Qed.

Lemma specialization_cache_witness :
  GetSpecialization [Int32] (Generic_ctor at_root "Identity" (Some 9)) = None
  ∧ ∃ g', AddSpecialization [Int32] (Some 2)
            (Generic_ctor at_root "Identity" (Some 9)) = Ok g'
          ∧ GetSpecialization [Int32] g' = Some (Some 2)
          ∧ GetSpecialization [Float64] g' = None
          ∧ AddSpecialization [Int32] (Some 3) g' = Fatal.
Proof.
  pose proof (specialization_cache
    (Generic_ctor at_root "Identity" (Some 9)) [Int32] (Some 2))
    as (H1 & H2 & _).
  split; [exact (H1 at_root "Identity" (Some 9) [] _ eq_refl
                    ltac:(apply not_elem_of_nil))|].
  destruct (H2 eq_refl) as (g' & E & HG & HF & Hother & _).
  exists g'. split; [exact E|]. split; [exact HG|].
  split; [|apply HF].
  rewrite Hother; [reflexivity | discriminate].
Defined.

(** ** Arenas built by the header *)

Lemma insert_sim (h : Heap) (a : addr) (o o' : Object) :
  h !! a = Some o → scope_sim o o' → heap_sim h (<[a := o']> h).
Proof.
  intros Ho Hsim.
  apply Forall2_same_length_lookup. split; [by rewrite length_insert|].
  intros i x y Hx Hy. destruct (decide (a = i)) as [<-|Hne].
  - rewrite list_lookup_insert_eq in Hy by (eapply lookup_lt_Some; eauto).
    rewrite Ho in Hx. injection Hx as <-. by injection Hy as <-.
  - rewrite list_lookup_insert_ne in Hy by done.
    rewrite Hx in Hy. injection Hy as <-. apply scope_sim_refl.
Qed.

Lemma constructed_base (ctx : Context) (o : Object) :
  constructed ctx o → Object_base o = Declarable_ctor ctx (Object_kind o).
Proof.
  intros [name|name sig tr body m E|name bk sig tr body b E|name sig tr r E
         |name decl|type re|name type v e E|name type body]; simpl; try done.
  - unfold Macro_ctor in E. apply bind_Ok_inv in E as (c & Ec & E).
    apply Callable_ctor_Ok_inv in Ec as [_ ->].
    apply bind_Ok_inv in E as (u & _ & E). by injection E as <-.
  - unfold Builtin_ctor in E. apply bind_Ok_inv in E as (c & Ec & E).
    apply Callable_ctor_Ok_inv in Ec as [_ ->]. by injection E as <-.
  - unfold RuntimeFunction_ctor in E. apply bind_Ok_inv in E as (c & Ec & E).
    apply Callable_ctor_Ok_inv in Ec as [_ ->]. by injection E as <-.
  - unfold ExternConstant_ctor in E. apply bind_Ok_inv in E as (x & Ex & E).
    injection E as <-. by injection Ex as <-.
Qed.

Lemma LookupShallow_sim (h h' : Heap) (this : addr) (name : string)
  (r : list Ptr) :
  LookupShallow h this name = Ok (r, h') → heap_sim h h'.
Proof.
  intros E. pose proof E as E'. unfold LookupShallow in E'.
  apply bind_Ok_inv in E' as (s & Es & _).
  apply deref_scope_Ok_inv in Es as (o & Ho & Hs).
  destruct (LookupShallow_spec h this o s name Ho Hs) as (h2 & E2 & Hsim).
  rewrite E in E2. by injection E2 as _ <-.
Qed.

Lemma Lookup_sim (h h' : Heap) (this : addr) (name : string) (r : list Ptr) :
  heap_wf h → Lookup h this name = Ok (r, h') → heap_sim h h'.
Proof.
  intros Hwf E. unfold Lookup in E.
  destruct (length h) as [|n] eqn:Hlen; [done|].
  pose proof E as E'. simpl in E'.
  apply bind_Ok_inv in E' as (s & Es & _).
  apply deref_scope_Ok_inv in Es as (o & Ho & Hs).
  pose proof (lookup_lt_Some _ _ _ Ho) as Hlt. rewrite Hlen in Hlt.
  destruct (Lookup_rec_ok h name Hwf (S n) this o s Hlt Ho Hs)
    as (r2 & h2 & E2 & Hsim & _).
  rewrite E in E2. by injection E2 as _ <-.
Qed.

(** Every arena of objects of the concrete classes built by the header is
    well formed. *)
Lemma built_wf (h : Heap) : built h → heap_wf h.
Proof.
  induction 1 as [|ctx h o _ IH Hok Hc|h this name d r h' _ IH E
                 |h this name r h' _ IH E|h this name r h' _ IH E
                 |h this v h' _ IH E|h this h' _ IH E|h this k c h' _ IH E].
  - intros a o Ho. by rewrite lookup_nil in Ho.
  - pose proof (constructed_base ctx o Hc) as Hb.
    apply new_wf; [done | by rewrite Hb |].
    unfold kind_ok. by rewrite Hb, bool_decide_eq_true.
  - eapply AddDeclarable_wf; eauto.
  - eapply heap_sim_wf; [eapply LookupShallow_sim|]; eauto.
  - eapply heap_sim_wf; [eapply Lookup_sim|]; eauto.
  - unfold call_set_value, deref in E.
    destruct (h !! this) as [o|] eqn:Ho; [|done]. simpl in E.
    destruct o; try done; apply bind_Ok_inv in E as (x & Ex & E);
      injection E as <-;
      unfold set_value in Ex; apply bind_Ok_inv in Ex as (u & _ & Ex);
      injection Ex as <-;
      (eapply heap_sim_wf; [eapply insert_sim; [exact Ho|]|done]);
      split_and!; simpl; try done; constructor.
  - unfold call_IncrementReturns_at, deref in E.
    destruct (h !! this) as [o|] eqn:Ho; [|done]. simpl in E.
    destruct o; try done; injection E as <-;
      (eapply heap_sim_wf; [eapply insert_sim; [exact Ho|]|done]);
      split_and!; simpl; try done; by constructor.
  - unfold call_AddSpecialization, deref in E.
    destruct (h !! this) as [o|] eqn:Ho; [|done]. simpl in E.
    destruct o; try done. apply bind_Ok_inv in E as (g' & Eg & E).
    injection E as <-.
    unfold AddSpecialization in Eg. apply bind_Ok_inv in Eg as (u & _ & Eg).
    injection Eg as <-.
    eapply heap_sim_wf; [eapply insert_sim; [exact Ho|]|done].
    split_and!; simpl; try done. constructor.
Qed.

(** ** CurrentModule *)

Lemma DynamicCast_Module_Some (h : Heap) (a : addr) (o : Object) :
  h !! a = Some o →
  DynamicCast class_Module h (Some a)
  = Ok (if IsModule (Object_base o) then Some a else nullptr).
Proof.
  intros Ho. unfold DynamicCast, deref. rewrite Ho. simpl.
  by destruct (IsModule (Object_base o)).
Qed.

(** The loop against the chain of parents: with enough [steps] and [n] for
    the address of the scope, the loop returns the first module of the chain,
    and dereferences the null parent of the root when there is none. *)
Lemma CurrentModule_loop_chain (h : Heap) :
  heap_wf h →
  ∀ (steps n : nat) (scope : Ptr),
    match scope with
    | Some a => S a < steps ∧ a < n ∧ is_Some (h !! a)
    | None => 0 < steps
    end →
    CurrentModule_loop steps h scope
    = match List.find (is_module h) (chain n h scope) with
      | Some m => Ok (Some m)
      | None => Undefined NullDereference
      end.
Proof.
  intros Hwf. induction steps as [|steps IH]; intros n scope Hscope.
  { destruct scope as [a|]; [destruct Hscope as [? _]|]; lia. }
  destruct scope as [a|]; cbn [CurrentModule_loop].
  - destruct Hscope as (Hs & Hn & [o Ho]).
    destruct n as [|n]; [lia|]. cbn [chain]. rewrite Ho.
    rewrite (DynamicCast_Module_Some _ _ _ Ho). cbn [List.find].
    unfold is_module at 1. rewrite Ho.
    destruct (IsModule (Object_base o)); [done|]. simpl.
    rewrite Ho. simpl.
    apply IH. destruct (Hwf a o Ho) as [Hp _]. unfold parent_ok in Hp.
    destruct (ParentScope (Object_base o)) as [p|]; [|lia].
    apply andb_true_iff in Hp as [Hlt%bool_decide_eq_true Hp].
    split_and!; [lia | lia |].
    destruct (h !! p); [eauto | done].
  - by destruct n.
Qed.

(** C5 as it holds.  On a well-formed arena, with the current scope null or
    a scope of the arena, [CurrentModule()] walks up through the parent
    pointers and ends: it returns the nearest enclosing Module when the
    chain has one, and when it has none it reaches the null parent of the
    root and dereferences it, which no check precedes. *)
Theorem CurrentModule_nearest (ctx : Context) (h : Heap) :
  heap_wf h → scope_ptr_ok h (CurrentScope ctx) = true →
  CurrentModule ctx h
  = match nearest_module h (CurrentScope ctx) with
    | Some m => Ok (Some m)
    | None => Undefined NullDereference
    end.
Proof.
  intros Hwf Hok. unfold CurrentModule, nearest_module.
  apply CurrentModule_loop_chain; [done|].
  unfold scope_ptr_ok in Hok.
  destruct (CurrentScope ctx) as [a|]; [|lia].
  destruct (h !! a) as [o|] eqn:Ho; [|done].
  apply lookup_lt_Some in Ho as Hlt. split_and!; [lia | lia | eauto].
Qed.

Lemma CurrentModule_nearest_witness :
  CurrentModule (inside 3) scenario_heap = Ok (Some 0)
  ∧ CurrentModule (inside 0) orphan_heap = Undefined NullDereference.
Proof.
  split.
  - rewrite (CurrentModule_nearest (inside 3) scenario_heap).
    + vm_compute. reflexivity.
    + apply heap_wfb_wf. vm_compute. reflexivity.
    + vm_compute. reflexivity.
  - rewrite (CurrentModule_nearest (inside 0) orphan_heap).
    + vm_compute. reflexivity.
    + apply heap_wfb_wf. vm_compute. reflexivity.
    + vm_compute. reflexivity.
Defined.

(** C5 as stated fails: in a macro declared outside of every module, or
    with no current scope at all, the chain has no Module and
    [CurrentModule()] is not a failed check: the loop has no check and runs
    into the dereference of a null scope pointer. *)
Lemma CurrentModule_without_module_not_fatal :
  heap_wf orphan_heap
  ∧ scope_ptr_ok orphan_heap (CurrentScope (inside 0)) = true
  ∧ nearest_module orphan_heap (CurrentScope (inside 0)) = None
  ∧ CurrentModule (inside 0) orphan_heap = Undefined NullDereference
  ∧ CurrentModule (inside 0) orphan_heap ≠ Fatal
  ∧ CurrentModule at_root [] = Undefined NullDereference.
Proof.
  split_and!; try (vm_compute; reflexivity).
  - apply heap_wfb_wf. vm_compute. reflexivity.
  - discriminate.
Qed.

(** ** Callables as scopes *)

Lemma new_callable_scope (ctx : Context) (h : Heap) (o : Object) (k : Kind) :
  heap_wf h → scope_ptr_ok h (CurrentScope ctx) = true →
  Object_scope o = Some (Scope_ctor ctx k) → kind_ok o = true →
  instance_of class_Callable o = true →
  callable_scope ctx (new o h).2 (new o h).1.
Proof.
  intros Hwf Hok Hs Hk Hinst. unfold new. cbn [fst snd].
  set (a := length h). set (h' := h ++ [o]).
  assert (heap_wf h') as Hwf'.
  { apply (new_wf h o); [done | | done].
    by rewrite (Object_scope_base _ _ Hs). }
  assert (h' !! a = Some o) as Ho by apply list_lookup_middle, eq_refl.
  split_and!; [done | | |].
  - exists o, (Scope_ctor ctx k). split_and!; done.
  - intros name.
    destruct (LookupShallow_spec h' a o _ name Ho Hs) as (h1 & E & _).
    exists h1. rewrite E. unfold decls. simpl. by rewrite lookup_empty.
  - intros name d.
    destruct (AddDeclarable_spec h' a o _ name d Ho Hs) as (s' & E & Hb & Hd).
    set (h1 := <[a := Object_with_scope s' o]> h') in *.
    assert (heap_wf h1) as Hwf1 by (eapply AddDeclarable_wf; eauto).
    assert (h1 !! a = Some (Object_with_scope s' o)) as Ho1.
    { apply list_lookup_insert_eq. eapply lookup_lt_Some; eauto. }
    pose proof (Object_with_scope_scope _ _ s' Hs) as Hs1.
    assert (decls s' name = [d]) as Hd1.
    { rewrite Hd. rewrite decide_True by done.
      unfold decls. simpl. by rewrite lookup_empty. }
    destruct (LookupShallow_spec h1 a _ _ name Ho1 Hs1) as (h2 & E2 & _).
    pose proof (lookup_lt_Some _ _ _ Ho1) as Hlt.
    destruct (Lookup_rec_ok h1 name Hwf1 (length h1) a _ _ Hlt Ho1 Hs1)
      as (r & h3 & E3 & _ & Hr).
    rewrite Hd1 in E2, Hr. rewrite Hb in Hr. simpl in Hr.
    unfold ParentScope in Hr. simpl in Hr.
    destruct (CurrentScope ctx) as [parent|].
    + destruct Hr as (rp & hp & Ep & ->).
      exists h1, h2, rp, h3. split_and!; try done.
      exists hp. eapply Lookup_rec_mono; [exact Ep | lia].
    + subst r. exists h1, h2, [], h3. split_and!; done.
Qed.

(** C9. On a well-formed arena with a current scope that is null or a scope
    of the arena, every Macro, Builtin and RuntimeFunction that is
    constructed is itself a Scope: it carries a registry of its own, empty
    at first, on which AddDeclarable, LookupShallow and Lookup work, and its
    parent scope is the current scope at its construction, so that Lookup
    from it yields the entries of the enclosing scopes and then its own. *)
Theorem Callable_is_Scope (ctx : Context) (h : Heap) (name : string)
  (sig : Signature) (tr : bool) :
  heap_wf h → scope_ptr_ok h (CurrentScope ctx) = true →
  (∀ body a h',
     new_Macro ctx h name sig tr body = Ok (a, h') → callable_scope ctx h' a)
  ∧ (∀ bk body a h',
       new_Builtin ctx h name bk sig tr body = Ok (a, h') →
       callable_scope ctx h' a)
  ∧ (∃ a h',
       new_RuntimeFunction ctx h name sig tr = Ok (a, h')
       ∧ callable_scope ctx h' a).
Proof.
  intros Hwf Hok. split_and!.
  - intros body a h' E. unfold new_Macro, Macro_ctor in E.
    apply bind_Ok_inv in E as (m & Em & E).
    apply bind_Ok_inv in Em as (c & [_ ->]%Callable_ctor_Ok_inv & Em).
    apply bind_Ok_inv in Em as (u & _ & Em). injection Em as <-.
    injection E as <- <-.
    by apply (new_callable_scope ctx h _ kMacro).
  - intros bk body a h' E. unfold new_Builtin, Builtin_ctor in E.
    apply bind_Ok_inv in E as (b & Eb & E).
    apply bind_Ok_inv in Eb as (c & [_ ->]%Callable_ctor_Ok_inv & Eb).
    injection Eb as <-. injection E as <- <-.
    by apply (new_callable_scope ctx h _ kBuiltin).
  - eexists _, _. split; [reflexivity|].
    by apply (new_callable_scope ctx h _ kRuntimeFunction).
Qed.

Lemma Callable_is_Scope_witness :
  ∃ a h',
    new_Macro (inside 0) module_heap "Foo" fixed_signature false None
    = Ok (a, h')
    ∧ callable_scope (inside 0) h' a.
Proof.
  eexists _, _. split; [reflexivity|].
  apply (proj1 (Callable_is_Scope (inside 0) module_heap "Foo"
                  fixed_signature false
                  ltac:(apply heap_wfb_wf; vm_compute; reflexivity)
                  ltac:(vm_compute; reflexivity))
           None).
  reflexivity.
Defined.

(** ** PrototypeInfo *)

Lemma TaggedWords_weak (p : positive) : TaggedWords.weak p = Z.pos p~1~1.
Proof. reflexivity. Qed.

Lemma TaggedWords_laws : MaybeObjectLaws TaggedWords.ops.
Proof.
  split; simpl.
  - intros o. rewrite TaggedWords_weak. reflexivity.
  - intros o. unfold TaggedWords.to_weak. rewrite TaggedWords_weak.
    reflexivity.
  - reflexivity.
Qed.

(** C10. Whatever PrototypeInfo [p] and map [m]: after
    [SetObjectCreateMap(p, m)] the field object_create_map holds the weak
    reference to [m] and the other fields are as before,
    [HasObjectCreateMap()] is true and [ObjectCreateMap()] returns [m], read
    back through that weak reference; and on every PrototypeInfo
    [HasObjectCreateMap()] is the test that the field object_create_map
    holds a weak heap object. *)
Theorem ObjectCreateMap_after_Set (ops : MaybeObjectOps)
  (p : PrototypeInfo) (m : MapPtr) :
  MaybeObjectLaws ops →
  HasObjectCreateMap (SetObjectCreateMap p m) = true
  ∧ ObjectCreateMap (SetObjectCreateMap p m) = Ok m
  ∧ object_create_map (SetObjectCreateMap p m) = Weak (Map_upcast m)
  ∧ weak_cell (SetObjectCreateMap p m) = weak_cell p
  ∧ prototype_users (SetObjectCreateMap p m) = prototype_users p
  ∧ registry_slot (SetObjectCreateMap p m) = registry_slot p
  ∧ bit_field (SetObjectCreateMap p m) = bit_field p
  ∧ ∀ q : PrototypeInfo,
      HasObjectCreateMap q = IsWeakHeapObject (object_create_map q).
Proof.
  intros [HW HT HM]. unfold HasObjectCreateMap, ObjectCreateMap. simpl.
  split_and!; try done.
  by rewrite HT; simpl.
Qed.

Lemma ObjectCreateMap_after_Set_witness :
  HasObjectCreateMap blank_info = false
  ∧ HasObjectCreateMap (SetObjectCreateMap blank_info 5%positive) = true
  ∧ ObjectCreateMap (SetObjectCreateMap blank_info 5%positive)
    = Ok 5%positive.
Proof.
  destruct (ObjectCreateMap_after_Set TaggedWords.ops blank_info 5%positive
              TaggedWords_laws) as (H1 & H2 & _).
  split; [reflexivity|]. split; assumption.
Defined.

(** * Further properties of the header *)

(** ** Kinds and casts *)

(** X1. The kind tests partition the declarables: every Declarable passes
    exactly one of IsModule, IsCallable, IsValue, IsGeneric and
    IsTypeAlias, and IsCallable and IsValue are the disjunctions of the
    tests of their concrete kinds, of which at most one holds. *)
Theorem kind_tests_partition (d : Declarable) :
  Nat.b2n (IsModule d) + Nat.b2n (IsCallable d) + Nat.b2n (IsValue d)
    + Nat.b2n (IsGeneric d) + Nat.b2n (IsTypeAlias d) = 1
  ∧ Nat.b2n (IsCallable d)
    = Nat.b2n (IsMacro d) + Nat.b2n (IsBuiltin d)
      + Nat.b2n (IsRuntimeFunction d)
  ∧ Nat.b2n (IsValue d)
    = Nat.b2n (IsExternConstant d) + Nat.b2n (IsModuleConstant d).
Proof.
  unfold IsCallable, IsValue, IsModule, IsMacro, IsBuiltin, IsRuntimeFunction,
    IsGeneric, IsTypeAlias, IsExternConstant, IsModuleConstant, kind.
  by destruct (kind_ d).
Qed.

(** Every Builtin passes exactly one of IsStub, IsFixedArgsJavaScript
    and IsVarArgsJavaScript. *)
Lemma Builtin_kind_tests_partition (b : Builtin) :
  Nat.b2n (IsStub b) + Nat.b2n (IsFixedArgsJavaScript b)
    + Nat.b2n (IsVarArgsJavaScript b) = 1.
Proof.
  unfold IsStub, IsFixedArgsJavaScript, IsVarArgsJavaScript.
  by destruct (Builtin_kind_ b).
Qed.

(** X2. For each of the ten classes of the boilerplate, the abstract Value
    and Callable among them, and every live declarable: the strict cast
    returns the pointer exactly when DynamicCast returns it, and is a failed
    check exactly when DynamicCast returns null; one of the two happens.  On
    the null pointer the strict cast dereferences it, where DynamicCast
    returns null. *)
Theorem cast_iff_DynamicCast (x : Class) (h : Heap) (a : addr) (o : Object) :
  h !! a = Some o →
  (cast x h (Some a) = Ok (Some a)
   ↔ DynamicCast x h (Some a) = Ok (Some a))
  ∧ (cast x h (Some a) = Fatal ↔ DynamicCast x h (Some a) = Ok nullptr)
  ∧ (cast x h (Some a) = Ok (Some a) ∨ cast x h (Some a) = Fatal)
  ∧ cast x h nullptr = Undefined NullDereference
  ∧ DynamicCast x h nullptr = Ok nullptr.
Proof.
  intros Ho. unfold cast, DynamicCast, deref. rewrite Ho. simpl.
  destruct (Is x (Object_base o)); simpl; split_and!; try done; auto.
Qed.

Lemma cast_iff_DynamicCast_witness :
  cast class_Callable scenario_heap (Some 2) = Ok (Some 2)
  ∧ cast class_Value scenario_heap (Some 2) = Fatal.
Proof.
  assert (∃ o, scenario_heap !! 2 = Some o) as [o Ho]
    by (eexists; vm_compute; reflexivity).
  split.
  - apply (proj1 (cast_iff_DynamicCast class_Callable scenario_heap 2 o Ho)).
    vm_compute. reflexivity.
  - apply (proj1 (proj2
             (cast_iff_DynamicCast class_Value scenario_heap 2 o Ho))).
    vm_compute. reflexivity.
Defined.

(** X3. Each constructor of the eight concrete classes builds an object on
    which, for each of the ten classes of the boilerplate, [Is##x] holds
    exactly when the class of the object is [x] or derives from it, and no
    method changes that.  So in an arena that holds only objects built by
    those constructors, none built directly by the public
    [Scope::Scope(Kind)], whose kind is whatever the caller passes, the
    pointer a strict cast returns is a pointer to an instance of the target
    class. *)
Theorem built_casts_are_safe (h : Heap) (a : addr) (o : Object) (x : Class) :
  (∀ ctx o', constructed ctx o' →
             Is x (Object_base o') = instance_of x o')
  ∧ (built h → h !! a = Some o →
     Is x (Object_base o) = instance_of x o
     ∧ (∀ r, cast x h (Some a) = Ok r →
             r = Some a ∧ instance_of x o = true)).
Proof.
  assert (∀ o', kind (Object_base o') = Object_kind o' →
                Is x (Object_base o') = instance_of x o') as HI.
  { intros o' Hk. destruct x; simpl;
      unfold IsModule, IsValue, IsModuleConstant, IsExternConstant,
        IsCallable, IsMacro, IsBuiltin, IsRuntimeFunction, IsGeneric,
        IsTypeAlias; rewrite Hk; by destruct o'. }
  split.
  - intros ctx o' Hc. apply HI. by rewrite (constructed_base ctx o' Hc).
  - intros Hb Ho. destruct (built_wf h Hb a o Ho) as [_ Hk].
    unfold kind_ok in Hk. apply bool_decide_eq_true in Hk.
    split; [by apply HI|].
    unfold cast, deref. rewrite Ho. simpl. rewrite (HI o Hk).
    destruct (instance_of x o); simpl; [|done]. by intros r [= <-].
Qed.

Lemma scenario_built : built scenario_heap.
Proof.
  pose (o0 := OModule (Module_ctor at_root "M")).
  assert (built [o0]) as H0.
  { apply (built_new at_root [] o0); [constructor|done|constructor]. }
  destruct (ExternConstant_ctor (inside 0) "kZero" Int32 "0") as [e| | | |] eqn:Ee;
    try discriminate.
  assert (built ([o0] ++ [OExternConstant e])) as H1.
  { apply (built_new (inside 0) [o0] (OExternConstant e));
      [done|reflexivity|]. by econstructor. }
  destruct (AddDeclarable ([o0] ++ [OExternConstant e]) 0 "kZero" (Some 1))
    as [[r1 h1]| | | |] eqn:E1; try discriminate.
  assert (built h1) as H2 by (eapply built_AddDeclarable; eauto).
  destruct (Macro_ctor (inside 0) "Foo" fixed_signature false (Some (Some 7)))
    as [m| | | |] eqn:Em; try discriminate.
  assert (scope_ptr_ok h1 (Some 0) = true) as Hok1.
  { injection Ee as <-. injection E1 as <- <-. reflexivity. }
  assert (built (h1 ++ [OMacro m])) as H3.
  { apply (built_new (inside 0) h1 (OMacro m)); [done|done|].
    by econstructor. }
  destruct (AddDeclarable (h1 ++ [OMacro m]) 0 "Foo" (Some (length h1)))
    as [[r2 h2]| | | |] eqn:E2;
    [|injection E1 as <- <-; injection Em as <-; discriminate..].
  assert (built h2) as H4 by (eapply built_AddDeclarable; eauto).
  destruct (Builtin_ctor (inside (length h1)) "Bar" kStub variadic_signature
              false None) as [b| | | |] eqn:Eb; try discriminate.
  assert (scope_ptr_ok h2 (Some (length h1)) = true) as Hok2.
  { injection Ee as <-. injection E1 as <- <-. injection Em as <-.
    injection E2 as <- <-. reflexivity. }
  assert (built (h2 ++ [OBuiltin b])) as H5.
  { apply (built_new (inside (length h1)) h2 (OBuiltin b)); [done|done|].
    by econstructor. }
  destruct (AddDeclarable (h2 ++ [OBuiltin b]) (length h1) "kZero"
              (Some (length h2))) as [[r3 h3]| | | |] eqn:E3;
    [|injection E1 as <- <-; injection Em as <-; injection E2 as <- <-;
      injection Eb as <-; discriminate..].
  assert (built h3) as H6 by (eapply built_AddDeclarable; eauto).
  assert (scenario_heap = h3) as ->; [|done].
  injection Ee as <-. injection E1 as <- <-. injection Em as <-.
  injection E2 as <- <-. injection Eb as <-. injection E3 as <- <-.
  reflexivity.
Qed.

Lemma built_casts_are_safe_witness :
  ∃ o, scenario_heap !! 2 = Some o ∧ instance_of class_Callable o = true.
Proof.
  eexists. split; [vm_compute; reflexivity|].
  apply (proj2 (proj2 (built_casts_are_safe scenario_heap 2 _ class_Callable)
                  scenario_built eq_refl) (Some 2)).
  vm_compute. reflexivity.
Defined.

(** X16. The diagnostic type name of an object is never the placeholder of
    Declarable, and it tells the concrete classes apart except the two
    constants, which both answer "constant". *)
Theorem type_name_tells_classes_apart (o1 o2 : Object) :
  Object_type_name o1 ≠ Declarable_type_name
  ∧ (Object_type_name o1 = Object_type_name o2
     ↔ Object_kind o1 = Object_kind o2
       ∨ ((Object_kind o1 = kExternConstant
           ∨ Object_kind o1 = kModuleConstant)
          ∧ (Object_kind o2 = kExternConstant
             ∨ Object_kind o2 = kModuleConstant))).
Proof.
  unfold Object_type_name, Declarable_type_name.
  split; [by destruct (Object_kind o1)|].
  destruct (Object_kind o1), (Object_kind o2); simpl;
    (split;
     [intros E; first [by left
                      | right; split; first [by left | by right]
                      | discriminate E]
     | intros [E|[[E1|E1] [E2|E2]]]; first [done | discriminate]]).
Qed.

(** ** Construction *)

(** X15. What decides the construction of a Callable: a Builtin is
    constructed exactly when the body is not a null statement, and fails the
    check of the Callable constructor otherwise; a Macro fails that check on
    a null statement, ends in the declaration error on a variadic signature
    otherwise, and is constructed exactly when neither is the case.  The
    object then carries the name, signature, flag and body it was given, a
    return count of zero and an empty registry under the current scope. *)
Theorem Callable_construction (ctx : Context) (name : string)
  (sig : Signature) (tr : bool) (body : option Ptr) (bk : BuiltinKind) :
  let c := {| Callable_base := Scope_ctor ctx kBuiltin;
              Callable_name_ := name; signature_ := sig;
              transitioning_ := tr; returns_ := 0%N; body_ := body |} in
  let c' := {| Callable_base := Scope_ctor ctx kMacro;
               Callable_name_ := name; signature_ := sig;
               transitioning_ := tr; returns_ := 0%N; body_ := body |} in
  Builtin_ctor ctx name bk sig tr body
  = (if decide (body = Some nullptr) then Fatal
     else Ok {| Builtin_base := c; Builtin_kind_ := bk |})
  ∧ Macro_ctor ctx name sig tr body
    = (if decide (body = Some nullptr) then Fatal
       else if var_args (parameter_types sig)
            then Error "Varargs are not supported for macros."
            else Ok {| Macro_base := c' |}).
Proof.
  unfold Builtin_ctor, Macro_ctor, Callable_ctor.
  destruct body as [[stmt|]|]; simpl; (split; [done|]);
    by destruct (var_args (parameter_types sig)).
Qed.

(** ** Values *)

Lemma set_value_frame (x : VisitResult) (v v' : Value) :
  set_value x v = Ok v' →
  Value_base v' = Value_base v ∧ type_ v' = type_ v
  ∧ Value_name_ v' = Value_name_ v ∧ value_ v = None ∧ value_ v' = Some x.
Proof.
  unfold set_value. intros E. apply bind_Ok_inv in E as (u & Eu & E).
  apply DCHECK_Ok_inv in Eu. injection E as <-. simpl.
  destruct (value_ v); done.
Qed.

(** X14. set_value writes the value slot alone: through any calls of
    set_value that return, a Value keeps its kind, parent scope, position,
    type and name; so the name of a ModuleConstant stays the constant name
    it was constructed with. *)
Theorem set_values_keep_name_and_type (l : list VisitResult) (v v' : Value) :
  set_values l v = Ok v' →
  Value_base v' = Value_base v ∧ type_ v' = type_ v
  ∧ Value_name_ v' = Value_name_ v
  ∧ ∀ ctx name type body,
      v = ModuleConstant_base (ModuleConstant_ctor ctx name type body) →
      Value_name_ v' = constant_name_ (ModuleConstant_ctor ctx name type body).
Proof.
  intros E.
  assert (Value_base v' = Value_base v ∧ type_ v' = type_ v
          ∧ Value_name_ v' = Value_name_ v) as (H1 & H2 & H3).
  { revert v E. induction l as [|x l IH]; intros v E; simpl in E.
    - by injection E as <-.
    - apply bind_Ok_inv in E as (v1 & E1 & E).
      apply set_value_frame in E1 as (? & ? & ? & _).
      destruct (IH v1 E) as (? & ? & ?). split_and!; congruence. }
  split_and!; try done. intros ctx name type body ->. by rewrite H3.
Qed.

Lemma set_values_keep_name_and_type_witness :
  ∃ v',
    set_values [{| vr_type := Int32; vr_value := "0" |}]
      (ModuleConstant_base (ModuleConstant_ctor at_root "kZero" Int32 (Some 5)))
    = Ok v'
    ∧ Value_name_ v' = "kZero" ∧ type_ v' = Int32.
Proof.
  eexists. split; [reflexivity|].
  destruct (set_values_keep_name_and_type
              [{| vr_type := Int32; vr_value := "0" |}]
              (ModuleConstant_base
                 (ModuleConstant_ctor at_root "kZero" Int32 (Some 5)))
              _ eq_refl) as (_ & H2 & H3 & _).
  split; [exact H3 | exact H2].
Defined.

(** ** The return counter *)

Lemma IncrementReturns_times_returns (n : nat) (c : Callable) :
  (returns_ c < 2 ^ 64)%N →
  returns_ (IncrementReturns_times n c)
  = ((returns_ c + N.of_nat n) mod 2 ^ 64)%N.
Proof.
  intros Hlt. unfold IncrementReturns_times.
  induction n as [|n IH].
  - simpl. rewrite N.add_0_r. by rewrite N.mod_small.
  - rewrite Nat.iter_succ. unfold IncrementReturns at 1. simpl returns_.
    rewrite IH. rewrite Nnat.Nat2N.inj_succ, <- N.add_1_r.
    rewrite N.add_assoc.
    rewrite (N.Div0.add_mod_idemp_l (returns_ c + N.of_nat n) 1). done.
Qed.

(** X13. The return counter of a Callable, a size_t taken at 64 bits: a
    Callable has no returns when constructed; after [n] calls of
    IncrementReturns, HasReturns() is true exactly when [n] is not a
    multiple of 2^64, so for every [n] from 1 to 2^64 - 1, and the counter
    has wrapped to "no returns" after 2^64 calls. *)
Theorem HasReturns_after_increments (ctx : Context) (k : Kind)
  (name : string) (sig : Signature) (tr : bool) (body : option Ptr)
  (c : Callable) (n : nat) :
  Callable_ctor ctx k name sig tr body = Ok c →
  HasReturns c = false
  ∧ (HasReturns (IncrementReturns_times n c) = true
     ↔ (N.of_nat n mod 2 ^ 64 ≠ 0)%N)
  ∧ ((0 < N.of_nat n < 2 ^ 64)%N →
     HasReturns (IncrementReturns_times n c) = true).
Proof.
  intros [_ ->]%Callable_ctor_Ok_inv.
  assert (HasReturns (IncrementReturns_times n
            {| Callable_base := Scope_ctor ctx k; Callable_name_ := name;
               signature_ := sig; transitioning_ := tr; returns_ := 0%N;
               body_ := body |}) = true
          ↔ (N.of_nat n mod 2 ^ 64 ≠ 0)%N) as Hiff.
  { unfold HasReturns. rewrite IncrementReturns_times_returns by done.
    simpl returns_. rewrite N.add_0_l.
    rewrite negb_true_iff, N.eqb_neq. done. }
  split_and!; [done | done |].
  intros [H0 Hlt]. apply Hiff. rewrite N.mod_small by done. lia.
Qed.

Lemma HasReturns_after_increments_witness :
  ∃ c, Callable_ctor at_root kMacro "Foo" fixed_signature false None = Ok c
       ∧ HasReturns c = false
       ∧ HasReturns (IncrementReturns_times 3 c) = true.
Proof.
  eexists. split; [reflexivity|].
  destruct (HasReturns_after_increments at_root kMacro "Foo" fixed_signature
              false None _ 3 eq_refl) as (H1 & _ & H3).
  split; [exact H1|]. apply H3. split; reflexivity.
Defined.

(** ** The specialization cache *)

Lemma AddSpecialization_outcome (k : TypeVector) (c : Ptr) (g : Generic) :
  AddSpecialization k c g
  = match specializations_ g !! k with
    | Some _ => Fatal
    | None =>
        Ok {| Generic_base := Generic_base g;
              Generic_name_ := Generic_name_ g;
              specializations_ := <[k := c]> (specializations_ g);
              declaration_ := declaration_ g |}
    end.
Proof.
  unfold AddSpecialization, DCHECK_EQ, count.
  by destruct (specializations_ g !! k).
Qed.

(** X12. A sequence of AddSpecialization calls on a Generic returns exactly
    when its keys are pairwise different and none of them is stored yet,
    and is a failed check otherwise.  When it returns, the cache holds the
    new pairs besides the old entries, and the name, the declaration and the
    Declarable subobject are as before. *)
Theorem AddSpecializations_distinct_keys (l : list (TypeVector * Ptr))
  (g : Generic) :
  ((∃ g', AddSpecializations l g = Ok g')
   ↔ NoDup l.*1 ∧ ∀ k, k ∈ l.*1 → specializations_ g !! k = None)
  ∧ (AddSpecializations l g = Fatal ∨ ∃ g', AddSpecializations l g = Ok g')
  ∧ (∀ g', AddSpecializations l g = Ok g' →
       specializations_ g'
       = (list_to_map l : gmap TypeVector Ptr) ∪ specializations_ g
       ∧ Generic_base g' = Generic_base g
       ∧ Generic_name_ g' = Generic_name_ g
       ∧ declaration_ g' = declaration_ g).
Proof.
  revert g. induction l as [|[k c] l IH]; intros g.
  { simpl. split_and!.
    - split; [intros _; split; [constructor|]; intros k Hk; by inversion Hk
             | eauto].
    - eauto.
    - intros g' [= <-]. by rewrite (left_id_L ∅ (∪)). }
  cbn [AddSpecializations fmap list_fmap fst]. rewrite AddSpecialization_outcome.
  destruct (specializations_ g !! k) as [c0|] eqn:Ek; simpl.
  - split_and!.
    + split; [intros [g' E]; discriminate|].
      intros [_ Hfresh]. specialize (Hfresh k ltac:(left)). congruence.
    + by left.
    + intros g' E. discriminate.
  - set (g1 := {| Generic_base := Generic_base g;
                  Generic_name_ := Generic_name_ g;
                  specializations_ := <[k:=c]> (specializations_ g);
                  declaration_ := declaration_ g |}).
    destruct (IH g1) as (IH1 & IH2 & IH3). split_and!.
    + rewrite IH1. rewrite NoDup_cons. split.
      * intros [Hnd Hfresh]. split; [split; [|done]|].
        -- intros Hin. specialize (Hfresh k Hin). simpl in Hfresh.
           by rewrite lookup_insert_eq in Hfresh.
        -- intros k' [->|Hin]%elem_of_cons; [done|].
           specialize (Hfresh k' Hin). simpl in Hfresh.
           destruct (decide (k = k')) as [<-|Hne].
           ++ by rewrite lookup_insert_eq in Hfresh.
           ++ by rewrite lookup_insert_ne in Hfresh.
      * intros [[Hnin Hnd] Hfresh]. split; [done|].
        intros k' Hin. simpl.
        rewrite lookup_insert_ne by (intros ->; done).
        apply Hfresh. by right.
    + done.
    + intros g' E. destruct (IH3 g' E) as (Hs & Hb & Hn & Hd).
      split_and!; try done. rewrite Hs. simpl.
      assert ((list_to_map l : gmap TypeVector Ptr) !! k = None) as Hk.
      { apply not_elem_of_list_to_map_1.
        assert (∃ g'', AddSpecializations l g1 = Ok g'') as Hex by eauto.
        apply IH1 in Hex as [_ Hfresh]. intros Hin.
        specialize (Hfresh k Hin). simpl in Hfresh.
        by rewrite lookup_insert_eq in Hfresh. }
      by rewrite <- insert_union_r, insert_union_l.
Qed.

Lemma AddSpecializations_distinct_keys_witness :
  (∃ g', AddSpecializations [([Int32], Some 2); ([Float64], Some 3)]
           (Generic_ctor at_root "Identity" (Some 9)) = Ok g'
         ∧ GetSpecialization [Float64] g' = Some (Some 3))
  ∧ AddSpecializations [([Int32], Some 2); ([Int32], Some 3)]
      (Generic_ctor at_root "Identity" (Some 9)) = Fatal.
Proof.
  split.
  - eexists. split; [reflexivity|].
    destruct (AddSpecializations_distinct_keys
                [([Int32], Some 2); ([Float64], Some 3)]
                (Generic_ctor at_root "Identity" (Some 9))) as (_ & _ & H).
    unfold GetSpecialization.
    rewrite (proj1 (H _ eq_refl)). reflexivity.
  - destruct (AddSpecializations_distinct_keys
                [([Int32], Some 2); ([Int32], Some 3)]
                (Generic_ctor at_root "Identity" (Some 9)))
      as (H1 & [HF|Hex] & _); [exact HF|].
    apply H1 in Hex as [Hnd _]. exfalso.
    apply NoDup_cons in Hnd as [Hnin _]. apply Hnin. left.
Defined.

(** ** Registration order *)

(** X7. Declarables registered under a name with AddDeclarable come back
    from the scope in the order of registration, after those that were
    there, and a declarable registered twice comes back twice; the vectors
    of the other names and the Declarable subobject are as before. *)
Theorem AddDeclarables_keep_order (name : string) (ds : list Ptr)
  (this : Scope) :
  decls (Scope_AddDeclarables name ds this) name = decls this name ++ ds
  ∧ (∀ name', name' ≠ name →
       decls (Scope_AddDeclarables name ds this) name' = decls this name')
  ∧ Scope_base (Scope_AddDeclarables name ds this) = Scope_base this
  ∧ (Scope_LookupShallow name (Scope_AddDeclarables name ds this)).1
    = (Scope_LookupShallow name this).1 ++ ds.
Proof.
  assert (decls (Scope_AddDeclarables name ds this) name = decls this name ++ ds
          ∧ (∀ name', name' ≠ name →
               decls (Scope_AddDeclarables name ds this) name'
               = decls this name')
          ∧ Scope_base (Scope_AddDeclarables name ds this) = Scope_base this)
    as (H1 & H2 & H3).
  { unfold Scope_AddDeclarables. revert this.
    induction ds as [|d ds IH]; intros this; simpl.
    - by rewrite app_nil_r.
    - destruct (IH (Scope_AddDeclarable name d this).2) as (I1 & I2 & I3).
      rewrite I1, I3, Scope_AddDeclarable_base.
      rewrite Scope_AddDeclarable_decls, decide_True by done.
      split_and!; [by rewrite <- app_assoc | | done].
      intros name' Hne. rewrite (I2 name' Hne).
      rewrite Scope_AddDeclarable_decls. by rewrite decide_False. }
  split_and!; try done.
  by rewrite !Scope_LookupShallow_value.
Qed.

(** ** Chains of parents *)

Lemma chain_None (n : nat) (h : Heap) : chain n h None = [].
Proof. by destruct n. Qed.

Lemma chain_elem_live (h : Heap) (n : nat) (p : Ptr) (b : addr) :
  b ∈ chain n h p → is_Some (h !! b).
Proof.
  revert p. induction n as [|n IH]; intros p; simpl; [by intros ?%elem_of_nil|].
  destruct p as [a|]; [|by intros ?%elem_of_nil].
  destruct (h !! a) as [o|] eqn:Ho; [|by intros ?%elem_of_nil].
  intros [->|Hin]%elem_of_cons; [by rewrite Ho | eauto].
Qed.

Lemma chain_le (h : Heap) :
  heap_wf h → ∀ (n : nat) (a b : addr), b ∈ chain n h (Some a) → b ≤ a.
Proof.
  intros Hwf. induction n as [|n IH]; intros a b; simpl;
    [by intros ?%elem_of_nil|].
  destruct (h !! a) as [o|] eqn:Ho; [|by intros ?%elem_of_nil].
  intros [->|Hin]%elem_of_cons; [done|].
  destruct (Hwf a o Ho) as [Hp _]. unfold parent_ok in Hp.
  destruct (ParentScope (Object_base o)) as [p|].
  - apply andb_true_iff in Hp as [Hlt%bool_decide_eq_true _].
    apply IH in Hin. lia.
  - rewrite chain_None in Hin. by apply elem_of_nil in Hin.
Qed.

(** On a well-formed arena the chain of a live scope stays the same in
    every arena that keeps the Declarable subobjects, whatever the bound
    beyond the address. *)
Lemma chain_agree (h h' : Heap) :
  heap_wf h →
  (∀ a o, h !! a = Some o →
          ∃ o', h' !! a = Some o' ∧ Object_base o' = Object_base o) →
  ∀ (n m : nat) (a : addr),
    a < n → a < m → is_Some (h !! a) →
    chain n h (Some a) = chain m h' (Some a).
Proof.
  intros Hwf Hsame. induction n as [|n IH]; intros m a Hn Hm [o Ho]; [lia|].
  destruct m as [|m]; [lia|]. simpl. rewrite Ho.
  destruct (Hsame a o Ho) as (o' & -> & ->). f_equal.
  destruct (Hwf a o Ho) as [Hp _]. unfold parent_ok in Hp.
  destruct (ParentScope (Object_base o)) as [p|]; [|by rewrite !chain_None].
  apply andb_true_iff in Hp as [Hlt%bool_decide_eq_true Hp].
  apply IH; [lia | lia |]. destruct (h !! p); [eauto | done].
Qed.

Lemma decls_at_scope (h : Heap) (a : addr) (o : Object) (s : Scope)
  (name : string) :
  h !! a = Some o → Object_scope o = Some s → decls_at h a name = decls s name.
Proof. intros Ho Hs. unfold decls_at. by rewrite Ho, Hs. Qed.

Lemma Lookup_rec_closed (h : Heap) (name : string) :
  heap_wf h →
  ∀ (depth : nat) (this : addr) (o : Object) (s : Scope),
    this < depth → h !! this = Some o → Object_scope o = Some s →
    ∃ h', Lookup_rec depth h this name
          = Ok (concat (map (λ b, decls_at h b name)
                            (rev (chain depth h (Some this)))), h')
          ∧ heap_sim h h'.
Proof.
  intros Hwf. induction depth as [|depth IH]; intros this o s Hlt Ho Hs; [lia|].
  destruct (Lookup_rec_ok h name Hwf (S depth) this o s Hlt Ho Hs)
    as (r & h' & E & Hsim & Hr).
  exists h'. split; [|done]. rewrite E. f_equal. f_equal.
  cbn [chain]. rewrite Ho, (Object_scope_base _ _ Hs).
  rewrite <- (decls_at_scope h this o s name Ho Hs) in Hr.
  destruct (Hwf this o Ho) as [Hp _]. unfold parent_ok in Hp.
  rewrite (Object_scope_base _ _ Hs) in Hp.
  destruct (ParentScope (Scope_base s)) as [parent|].
  - destruct Hr as (rp & hp & Ep & ->). simpl in Ep.
    apply andb_true_iff in Hp as [Hpl%bool_decide_eq_true Hp].
    destruct (h !! parent) as [po|] eqn:Epo; [|done].
    destruct (Object_scope po) as [ps|] eqn:Eps; [|done].
    destruct (IH parent po ps ltac:(lia) Epo Eps) as (h1 & E1 & _).
    rewrite Ep in E1. injection E1 as -> _.
    cbn [rev]. rewrite map_app, concat_app. simpl. by rewrite app_nil_r.
  - subst r. rewrite chain_None. simpl. by rewrite app_nil_r.
Qed.

Lemma Lookup_closed (h : Heap) (this : addr) (name : string) :
  heap_wf h → scope_ptr_ok h (Some this) = true →
  ∃ h', Lookup h this name = Ok (along_chain h this name, h')
        ∧ heap_sim h h'.
Proof.
  intros Hwf Hok. unfold scope_ptr_ok in Hok.
  destruct (h !! this) as [o|] eqn:Ho; [|done].
  destruct (Object_scope o) as [s|] eqn:Hs; [|done].
  pose proof (lookup_lt_Some _ _ _ Ho) as Hlt.
  apply (Lookup_rec_closed h name Hwf (length h) this o s Hlt Ho Hs).
Qed.

Lemma LookupShallow_closed (h : Heap) (this : addr) (name : string) :
  scope_ptr_ok h (Some this) = true →
  ∃ h', LookupShallow h this name = Ok (decls_at h this name, h')
        ∧ heap_sim h h'.
Proof.
  intros Hok. unfold scope_ptr_ok in Hok.
  destruct (h !! this) as [o|] eqn:Ho; [|done].
  destruct (Object_scope o) as [s|] eqn:Hs; [|done].
  rewrite (decls_at_scope _ _ _ _ name Ho Hs).
  apply (LookupShallow_spec h this o s name Ho Hs).
Qed.

(** X4. On a well-formed arena the result of Lookup is the concatenation of
    the vectors registered under the name in the scopes of the chain of
    parents, from the root down to the scope itself. *)
Theorem Lookup_concatenates_chain (h : Heap) (this : addr) (name : string) :
  heap_wf h → scope_ptr_ok h (Some this) = true →
  ∃ h', Lookup h this name = Ok (along_chain h this name, h').
Proof.
  intros Hwf Hok. destruct (Lookup_closed h this name Hwf Hok) as (h' & E & _).
  by exists h'.
Qed.

Lemma Lookup_concatenates_chain_witness :
  ∃ h', Lookup scenario_heap 3 "kZero" = Ok ([Some 1; Some 3], h')
        ∧ chain 4 scenario_heap (Some 3) = [3; 2; 0].
Proof.
  destruct (Lookup_concatenates_chain scenario_heap 3 "kZero") as [h' E].
  - apply heap_wfb_wf. vm_compute. reflexivity.
  - vm_compute. reflexivity.
  - exists h'. split; [|vm_compute; reflexivity].
    assert (along_chain scenario_heap 3 "kZero" = [Some 1; Some 3]) as Hc
      by (vm_compute; reflexivity).
    rewrite Hc in E. exact E.
Defined.

(** ** What Lookup leaves behind *)

Lemma heap_sim_same_bases (h h' : Heap) :
  heap_sim h h' →
  ∀ a o, h !! a = Some o →
         ∃ o', h' !! a = Some o' ∧ Object_base o' = Object_base o.
Proof.
  intros Hsim a o Ho.
  destruct (heap_sim_lookup _ _ _ _ Hsim Ho) as (o' & Ho' & (Hb & _)).
  eauto.
Qed.

Lemma heap_sim_decls_at (h h' : Heap) (a : addr) (name : string) :
  heap_sim h h' → decls_at h a name = decls_at h' a name.
Proof.
  intros Hsim. unfold decls_at.
  destruct (h !! a) as [o|] eqn:Ho.
  - destruct (heap_sim_lookup _ _ _ _ Hsim Ho) as (o' & -> & (_ & _ & Hs)).
    destruct Hs as [s s' Hd|]; [apply Hd | done].
  - apply lookup_ge_None in Ho. rewrite (heap_sim_length _ _ Hsim) in Ho.
    apply lookup_ge_None in Ho. by rewrite Ho.
Qed.

Lemma heap_sim_along_chain (h h' : Heap) (this : addr) (name : string) :
  heap_wf h → heap_sim h h' → is_Some (h !! this) →
  along_chain h this name = along_chain h' this name.
Proof.
  intros Hwf Hsim Hlive. unfold along_chain.
  pose proof (lookup_lt_is_Some_1 _ _ Hlive) as Hlt.
  rewrite <- (heap_sim_length _ _ Hsim).
  rewrite <- (chain_agree h h' Hwf (heap_sim_same_bases _ _ Hsim)
                (length h) (length h) this Hlt Hlt Hlive).
  f_equal. apply map_ext. intros b. by apply heap_sim_decls_at.
Qed.

Lemma heap_sim_scope_ptr_ok (h h' : Heap) (p : Ptr) :
  heap_sim h h' → scope_ptr_ok h p = true → scope_ptr_ok h' p = true.
Proof.
  intros Hsim. unfold scope_ptr_ok. destruct p as [a|]; [|done].
  destruct (h !! a) as [o|] eqn:Ho; [|done].
  destruct (heap_sim_lookup _ _ _ _ Hsim Ho) as (o' & -> & (_ & _ & Hs)).
  destruct Hs; done.
Qed.

Lemma subscript_present (m : gmap string (list Ptr)) (name : string) :
  (subscript m name).2 !! name = Some (subscript m name).1.
Proof.
  unfold subscript. destruct (m !! name) eqn:E; simpl.
  - by rewrite E.
  - by rewrite lookup_insert_eq.
Qed.

Lemma LookupShallow_stores (h h' : Heap) (this : addr) (name : string)
  (r : list Ptr) :
  LookupShallow h this name = Ok (r, h') →
  r = decls_at h this name
  ∧ ∃ s', deref_scope h' (Some this) = Ok s'
          ∧ declarations_ s' !! name = Some r.
Proof.
  unfold LookupShallow. intros E. apply bind_Ok_inv in E as (s & Es & E).
  apply deref_scope_Ok_inv in Es as (o & Ho & Hs).
  pose proof (subscript_present (declarations_ s) name) as Hp.
  pose proof (Scope_LookupShallow_value name s) as Hv.
  unfold Scope_LookupShallow in E, Hv.
  destruct (subscript (declarations_ s) name) as [v m]. simpl in Hp, Hv.
  injection E as <- <-. unfold store_scope. rewrite Ho.
  split; [by rewrite (decls_at_scope _ _ _ _ name Ho Hs)|].
  exists {| Scope_base := Scope_base s; declarations_ := m |}.
  split; [|exact Hp].
  eapply deref_scope_Some.
  - apply list_lookup_insert_eq. eapply lookup_lt_Some; eauto.
  - by eapply Object_with_scope_scope.
Qed.

Lemma Lookup_rec_sim (depth : nat) (h h' : Heap) (this : addr)
  (name : string) (r : list Ptr) :
  heap_wf h → Lookup_rec depth h this name = Ok (r, h') → heap_sim h h'.
Proof.
  intros Hwf E.
  assert (∃ o s, h !! this = Some o ∧ Object_scope o = Some s)
    as (o & s & Ho & Hs).
  { destruct depth as [|n]; [done|]. simpl in E.
    apply bind_Ok_inv in E as (s & Es & _).
    apply deref_scope_Ok_inv in Es as (o & Ho & Hs). eauto. }
  apply (Lookup_rec_mono depth (depth `max` S this)) in E; [|lia].
  destruct (Lookup_rec_ok h name Hwf (depth `max` S this) this o s
              ltac:(lia) Ho Hs) as (r2 & h2 & E2 & Hsim & _).
  rewrite E in E2. by injection E2 as _ <-.
Qed.

(** X5. Lookup and LookupShallow are not const: through operator[] they
    leave, stored under the name they were asked for, the vector the scope
    had for it, an empty one when the scope did not know the name.  No later
    call can tell: on a well-formed arena, in the arena left by a Lookup or
    a LookupShallow every Lookup and every LookupShallow, in any scope and
    for any name, returns what it returns in the arena before. *)
Theorem Lookup_leaves_lookups (h h1 : Heap) (this : addr) (name : string)
  (r : list Ptr) :
  heap_wf h →
  Lookup h this name = Ok (r, h1) ∨ LookupShallow h this name = Ok (r, h1) →
  (∃ s1, deref_scope h1 (Some this) = Ok s1
         ∧ declarations_ s1 !! name = Some (decls_at h this name))
  ∧ ∀ b name', scope_ptr_ok h (Some b) = true →
      ∃ rb rs h2 h3 h4 h5,
        Lookup h b name' = Ok (rb, h2) ∧ Lookup h1 b name' = Ok (rb, h3)
        ∧ LookupShallow h b name' = Ok (rs, h4)
        ∧ LookupShallow h1 b name' = Ok (rs, h5).
Proof.
  intros Hwf HE.
  assert (heap_sim h h1) as Hsim.
  { destruct HE as [E|E]; [by eapply Lookup_sim | by eapply LookupShallow_sim]. }
  split.
  - destruct HE as [E|E].
    + unfold Lookup in E. destruct (length h) as [|n]; [done|]. simpl in E.
      apply bind_Ok_inv in E as (s & _ & E).
      apply bind_Ok_inv in E as ([rp hp] & Ep & E).
      apply bind_Ok_inv in E as ([v h2] & E2 & E). injection E as _ <-.
      assert (heap_sim h hp) as Hp.
      { destruct (ParentScope (Scope_base s)) as [parent|].
        - by eapply Lookup_rec_sim.
        - injection Ep as _ <-. apply heap_sim_refl. }
      apply LookupShallow_stores in E2 as (-> & s1 & Hs1 & Hk).
      rewrite <- (heap_sim_decls_at h hp this name Hp) in Hk. eauto.
    + apply LookupShallow_stores in E as (-> & s1 & Hs1 & Hk). eauto.
  - intros b name' Hok.
    pose proof (heap_sim_wf _ _ Hsim Hwf) as Hwf1.
    pose proof (heap_sim_scope_ptr_ok _ _ _ Hsim Hok) as Hok1.
    destruct (Lookup_closed h b name' Hwf Hok) as (h2 & E2 & _).
    destruct (Lookup_closed h1 b name' Hwf1 Hok1) as (h3 & E3 & _).
    destruct (LookupShallow_closed h b name' Hok) as (h4 & E4 & _).
    destruct (LookupShallow_closed h1 b name' Hok1) as (h5 & E5 & _).
    assert (is_Some (h !! b)) as Hlive.
    { unfold scope_ptr_ok in Hok. destruct (h !! b); [eauto | done]. }
    rewrite <- (heap_sim_along_chain h h1 b name' Hwf Hsim Hlive) in E3.
    rewrite <- (heap_sim_decls_at h h1 b name' Hsim) in E5.
    eauto 10.
Qed.

Lemma Lookup_leaves_lookups_witness :
  ∃ h1 s1 h3,
    LookupShallow module_heap 0 "x" = Ok ([], h1)
    ∧ deref_scope module_heap (Some 0) = Ok (Scope_ctor at_root kModule)
    ∧ deref_scope h1 (Some 0) = Ok s1
    ∧ declarations_ s1 !! "x" = Some []
    ∧ Lookup h1 0 "x" = Ok ([], h3).
Proof.
  assert (∃ h1, LookupShallow module_heap 0 "x" = Ok ([], h1)) as [h1 E1]
    by (eexists; vm_compute; reflexivity).
  destruct (Lookup_leaves_lookups module_heap h1 0 "x" []) as (_ & H).
  - apply heap_wfb_wf. vm_compute. reflexivity.
  - right. exact E1.
  - destruct (H 0 "x" eq_refl) as (rb & rs & h2 & h3 & h4 & h5 & A & B & _).
    assert (rb = []) as ->.
    { pose proof A as A'. vm_compute in A'. by injection A' as <- _. }
    eexists h1, _, h3. split; [exact E1|]. split; [reflexivity|].
    split; [|split; [|exact B]].
    + pose proof E1 as E. vm_compute in E. injection E as <-.
      vm_compute. reflexivity.
    + pose proof E1 as E. vm_compute in E. injection E as <-.
      vm_compute. reflexivity.
Defined.

(** ** Registration and construction against Lookup *)

(** Lookup in an arena that keeps the Declarable subobjects and the Scope
    objects of a well-formed one runs along the same chain. *)
Lemma Lookup_frame (h h' : Heap) (b : addr) (name : string) :
  heap_wf h → heap_wf h' →
  (∀ a o, h !! a = Some o →
          ∃ o', h' !! a = Some o' ∧ Object_base o' = Object_base o) →
  scope_ptr_ok h (Some b) = true → scope_ptr_ok h' (Some b) = true →
  ∃ h2, Lookup h' b name
        = Ok (concat (map (λ c, decls_at h' c name)
                          (rev (chain (length h) h (Some b)))), h2).
Proof.
  intros Hwf Hwf' Hsame Hok Hok'.
  destruct (Lookup_closed h' b name Hwf' Hok') as (h2 & E & _).
  exists h2. rewrite E. unfold along_chain.
  assert (is_Some (h !! b)) as Hlive.
  { unfold scope_ptr_ok in Hok. destruct (h !! b); [eauto | done]. }
  assert (is_Some (h' !! b)) as Hlive'.
  { unfold scope_ptr_ok in Hok'. destruct (h' !! b); [eauto | done]. }
  rewrite (chain_agree h h' Hwf Hsame (length h) (length h') b); [done| | |done];
    by apply lookup_lt_is_Some_1.
Qed.

Lemma AddDeclarable_decls_at (h h' : Heap) (a : addr) (name : string)
  (d r : Ptr) :
  AddDeclarable h a name d = Ok (r, h') →
  r = d
  ∧ scope_ptr_ok h (Some a) = true
  ∧ length h' = length h
  ∧ (∀ c o, h !! c = Some o →
            ∃ o', h' !! c = Some o' ∧ Object_base o' = Object_base o
                  ∧ has_value (Object_scope o') = has_value (Object_scope o))
  ∧ ∀ c name',
      decls_at h' c name'
      = if decide (c = a ∧ name' = name) then decls_at h a name ++ [d]
        else decls_at h c name'.
Proof.
  intros E. pose proof E as E'. unfold AddDeclarable in E'.
  apply bind_Ok_inv in E' as (s & Es & _).
  apply deref_scope_Ok_inv in Es as (o & Ho & Hs).
  destruct (AddDeclarable_spec h a o s name d Ho Hs) as (s' & E2 & Hb & Hd).
  rewrite E in E2. injection E2 as -> ->.
  pose proof (lookup_lt_Some _ _ _ Ho) as Hlt.
  pose proof (Object_with_scope_scope _ _ s' Hs) as Hs'.
  split_and!.
  - done.
  - unfold scope_ptr_ok. by rewrite Ho, Hs.
  - by rewrite length_insert.
  - intros c x Hx. destruct (decide (a = c)) as [<-|Hne].
    + rewrite list_lookup_insert_eq by done. eexists. split; [done|].
      rewrite Ho in Hx. injection Hx as <-.
      rewrite (Object_scope_base _ _ Hs'), Hb, (Object_scope_base _ _ Hs).
      by rewrite Hs, Hs'.
    + rewrite list_lookup_insert_ne by done. eauto.
  - intros c name'. unfold decls_at.
    destruct (decide (a = c)) as [<-|Hne].
    + rewrite list_lookup_insert_eq by done. rewrite Ho, Hs, Hs', Hd.
      destruct (decide (name = name')) as [<-|Hn].
      * by rewrite decide_True.
      * rewrite decide_False; [done|]. intros [_ ->]. done.
    + rewrite list_lookup_insert_ne by done.
      rewrite decide_False; [done|]. intros [-> _]. done.
Qed.

(** X6. AddDeclarable against Lookup, on a well-formed arena: after
    [AddDeclarable(name, d)] on a scope, which returns [d], Lookup of the
    name from that scope returns what it returned before followed by [d];
    Lookup of any other name, and Lookup from any scope whose chain of
    parents does not pass through that scope, return what they returned
    before. *)
Theorem AddDeclarable_then_Lookup (h h' : Heap) (this : addr) (name : string)
  (d r : Ptr) :
  heap_wf h → AddDeclarable h this name d = Ok (r, h') →
  r = d
  ∧ (∃ old h1 h2, Lookup h this name = Ok (old, h1)
                  ∧ Lookup h' this name = Ok (old ++ [d], h2))
  ∧ ∀ b name', scope_ptr_ok h (Some b) = true →
      name' ≠ name ∨ this ∉ chain (length h) h (Some b) →
      ∃ rb h1 h2, Lookup h b name' = Ok (rb, h1)
                  ∧ Lookup h' b name' = Ok (rb, h2).
Proof.
  intros Hwf E.
  pose proof (AddDeclarable_wf _ _ _ _ _ _ Hwf E) as Hwf'.
  destruct (AddDeclarable_decls_at _ _ _ _ _ _ E)
    as (-> & Hok & Hlen & Hsame & Hd).
  assert (∀ b, scope_ptr_ok h (Some b) = true →
               scope_ptr_ok h' (Some b) = true) as Hoks.
  { intros b. unfold scope_ptr_ok. destruct (h !! b) as [o|] eqn:Ho; [|done].
    destruct (Hsame b o Ho) as (o' & -> & _ & ->). done. }
  assert (∀ a o, h !! a = Some o →
            ∃ o', h' !! a = Some o' ∧ Object_base o' = Object_base o) as Hsb.
  { intros a o Ho. destruct (Hsame a o Ho) as (o' & ? & ? & _). eauto. }
  split; [done|]. split.
  - destruct (Lookup_closed h this name Hwf Hok) as (h1 & E1 & _).
    destruct (Lookup_frame h h' this name Hwf Hwf' Hsb Hok (Hoks _ Hok))
      as (h2 & E2).
    exists (along_chain h this name), h1, h2. split; [done|].
    rewrite E2. f_equal. f_equal. unfold along_chain.
    unfold scope_ptr_ok in Hok.
    destruct (h !! this) as [o|] eqn:Ho; [|done].
    pose proof (lookup_lt_Some _ _ _ Ho) as Hlt.
    destruct (length h) as [|n] eqn:Hn; [lia|].
    cbn [chain]. rewrite Ho. cbn [rev].
    rewrite !map_app, !concat_app. simpl. rewrite !app_nil_r.
    rewrite Hd, decide_True by done. rewrite app_assoc. f_equal. f_equal.
    f_equal. apply map_ext_in. intros c Hc%in_rev%list_elem_of_In.
    rewrite Hd, decide_False; [done|]. intros [-> _].
    destruct (Hwf this o Ho) as [Hp _]. unfold parent_ok in Hp.
    destruct (ParentScope (Object_base o)) as [p|].
    + apply andb_true_iff in Hp as [Hpl%bool_decide_eq_true _].
      apply (chain_le h Hwf) in Hc. lia.
    + rewrite chain_None in Hc. by apply elem_of_nil in Hc.
  - intros b name' Hokb Hcase.
    destruct (Lookup_closed h b name' Hwf Hokb) as (h1 & E1 & _).
    destruct (Lookup_frame h h' b name' Hwf Hwf' Hsb Hokb (Hoks _ Hokb))
      as (h2 & E2).
    exists (along_chain h b name'), h1, h2. split; [done|].
    rewrite E2. f_equal. f_equal. unfold along_chain. f_equal.
    apply map_ext_in. intros c Hc%in_rev%list_elem_of_In.
    rewrite Hd, decide_False; [done|]. intros [-> ->].
    destruct Hcase as [Hne|Hnin]; [done | by apply Hnin].
Qed.

Lemma AddDeclarable_then_Lookup_witness :
  ∃ h' h1 h2 h3 h4,
    AddDeclarable scenario_heap 2 "kZero" (Some 9) = Ok (Some 9, h')
    ∧ Lookup scenario_heap 2 "kZero" = Ok ([Some 1; Some 3], h1)
    ∧ Lookup h' 2 "kZero" = Ok ([Some 1; Some 3; Some 9], h2)
    ∧ Lookup scenario_heap 0 "kZero" = Ok ([Some 1], h3)
    ∧ Lookup h' 0 "kZero" = Ok ([Some 1], h4).
Proof.
  assert (∃ h', AddDeclarable scenario_heap 2 "kZero" (Some 9)
                = Ok (Some 9, h')) as [h' E]
    by (eexists; vm_compute; reflexivity).
  destruct (AddDeclarable_then_Lookup scenario_heap h' 2 "kZero" (Some 9)
              (Some 9)) as (_ & (old & h1 & h2 & A & B) & H).
  - apply heap_wfb_wf. vm_compute. reflexivity.
  - exact E.
  - destruct (H 0 "kZero" eq_refl) as (rb & h3 & h4 & C & D).
    { right. vm_compute. intros Hin. repeat (apply elem_of_cons in Hin
        as [Hin|Hin]; [discriminate|]). by apply elem_of_nil in Hin. }
    assert (old = [Some 1; Some 3]) as ->.
    { pose proof A as A'. vm_compute in A'. by injection A' as <- _. }
    assert (rb = [Some 1]) as ->.
    { pose proof C as C'. vm_compute in C'. by injection C' as <- _. }
    exists h', h1, h2, h3, h4. split_and!; assumption.
Defined.

(** X20. Constructing a declarable does not register it: on a well-formed
    arena, Lookup and LookupShallow from every scope that was there return,
    in the arena with the new object, what they returned before; the new
    object takes the next address, and the arena stays well formed. *)
Theorem construction_registers_nothing (ctx : Context) (h : Heap)
  (o : Object) :
  heap_wf h → scope_ptr_ok h (CurrentScope ctx) = true → constructed ctx o →
  (new o h).1 = length h
  ∧ (new o h).2 !! length h = Some o
  ∧ heap_wf (new o h).2
  ∧ ∀ b name, scope_ptr_ok h (Some b) = true →
      ∃ rb rs h1 h2 h3 h4,
        Lookup h b name = Ok (rb, h1)
        ∧ Lookup (new o h).2 b name = Ok (rb, h2)
        ∧ LookupShallow h b name = Ok (rs, h3)
        ∧ LookupShallow (new o h).2 b name = Ok (rs, h4).
Proof.
  intros Hwf Hcs Hc. unfold new. cbn [fst snd].
  pose proof (constructed_base ctx o Hc) as Hb.
  assert (heap_wf (h ++ [o])) as Hwf'.
  { apply (new_wf h o Hwf); [by rewrite Hb|].
    unfold kind_ok. by rewrite Hb, bool_decide_eq_true. }
  split_and!; [done | by apply list_lookup_middle | done |].
  intros b name Hok.
  assert (∀ a x, h !! a = Some x → (h ++ [o]) !! a = Some x) as Hl
    by (intros a x Hx; by apply lookup_app_l_Some).
  assert (scope_ptr_ok (h ++ [o]) (Some b) = true) as Hok'.
  { unfold scope_ptr_ok in *. destruct (h !! b) as [x|] eqn:Hx; [|done].
    by rewrite (Hl b x Hx). }
  assert (∀ c, is_Some (h !! c) →
               ∀ n, decls_at (h ++ [o]) c n = decls_at h c n) as Hd.
  { intros c [x Hx] n. unfold decls_at. by rewrite (Hl c x Hx), Hx. }
  destruct (Lookup_closed h b name Hwf Hok) as (h1 & E1 & _).
  destruct (Lookup_frame h (h ++ [o]) b name Hwf Hwf') as (h2 & E2);
    [intros a x Hx; eauto | done | done |].
  destruct (LookupShallow_closed h b name Hok) as (h3 & E3 & _).
  destruct (LookupShallow_closed (h ++ [o]) b name Hok') as (h4 & E4 & _).
  exists (along_chain h b name), (decls_at h b name), h1, h2, h3, h4.
  split_and!; try done.
  - rewrite E2. f_equal. f_equal. unfold along_chain. f_equal.
    apply map_ext_in. intros c Hc'%in_rev%list_elem_of_In.
    apply Hd. by eapply chain_elem_live.
  - rewrite E4, Hd; [done|].
    unfold scope_ptr_ok in Hok. destruct (h !! b); [eauto | done].
Qed.

Lemma construction_registers_nothing_witness :
  ∃ b h' h1 h2,
    Builtin_ctor (inside 0) "Baz" kStub fixed_signature false None = Ok b
    ∧ h' = (new (OBuiltin b) scenario_heap).2
    ∧ h' !! 4 = Some (OBuiltin b)
    ∧ Lookup scenario_heap 3 "Baz" = Ok ([], h1)
    ∧ Lookup h' 3 "Baz" = Ok ([], h2).
Proof.
  eexists _, _. 
  assert (constructed (inside 0)
            (OBuiltin {| Builtin_base :=
                           {| Callable_base := Scope_ctor (inside 0) kBuiltin;
                              Callable_name_ := "Baz";
                              signature_ := fixed_signature;
                              transitioning_ := false; returns_ := 0%N;
                              body_ := None |};
                         Builtin_kind_ := kStub |})) as Hc.
  { by apply (constructed_Builtin (inside 0) "Baz" kStub fixed_signature
                false None). }
  destruct (construction_registers_nothing (inside 0) scenario_heap _
              ltac:(apply heap_wfb_wf; vm_compute; reflexivity)
              ltac:(vm_compute; reflexivity) Hc) as (_ & Hnew & _ & H).
  destruct (H 3 "Baz" eq_refl) as (rb & rs & h1 & h2 & _ & _ & A & B & _).
  assert (rb = []) as ->.
  { pose proof A as A'. vm_compute in A'. by injection A' as <- _. }
  exists h1, h2. split; [reflexivity|]. split; [reflexivity|].
  split; [exact Hnew|]. split; [exact A | exact B].
Defined.

(** ** What the methods keep *)

Lemma grows_refl (o : Object) : grows o o.
Proof. unfold grows. split_and!; try done; intros; eauto 10. Qed.

Lemma grows_trans (o1 o2 o3 : Object) : grows o1 o2 → grows o2 o3 → grows o1 o3.
Proof.
  intros (B1 & K1 & S1 & V1 & C1 & G1) (B2 & K2 & S2 & V2 & C2 & G2).
  unfold grows. split_and!; [congruence | congruence | | | |].
  - intros s Hs. destruct (S1 s Hs) as (s2 & Hs2 & P12).
    destruct (S2 s2 Hs2) as (s3 & Hs3 & P23). exists s3. split; [done|].
    intros name. etrans; [apply P12 | apply P23].
  - intros v Hv. destruct (V1 v Hv) as (v2 & Hv2 & T1 & N1 & X1).
    destruct (V2 v2 Hv2) as (v3 & Hv3 & T2 & N2 & X2). exists v3.
    split_and!; [done | congruence | congruence | eauto].
  - intros c Hc. destruct (C1 c Hc) as (c2 & Hc2 & ? & ? & ? & ?).
    destruct (C2 c2 Hc2) as (c3 & Hc3 & ? & ? & ? & ?). exists c3.
    split_and!; congruence.
  - intros g Hg. destruct (G1 g Hg) as (g2 & Hg2 & ? & ? & X1).
    destruct (G2 g2 Hg2) as (g3 & Hg3 & ? & ? & X2). exists g3.
    split_and!; [done | congruence | congruence | eauto].
Qed.

Lemma Object_with_scope_grows (o : Object) (s s' : Scope) :
  Object_scope o = Some s → Scope_base s' = Scope_base s →
  (∀ name, decls s name `prefix_of` decls s' name) →
  grows o (Object_with_scope s' o).
Proof.
  intros Hs Hb Hd. pose proof (Object_with_scope_scope _ _ s' Hs) as Hs'.
  unfold grows. split_and!.
  - by rewrite (Object_scope_base _ _ Hs'), Hb, (Object_scope_base _ _ Hs).
  - apply Object_with_scope_kind.
  - intros s0 Hs0. rewrite Hs in Hs0. injection Hs0 as <-. eauto.
  - intros v Hv. destruct o; simpl in *; discriminate.
  - intros c Hc. destruct o; simpl in *; try discriminate;
      injection Hc as <-; eexists; split_and!; done.
  - intros g Hg. destruct o; simpl in *; discriminate.
Qed.

Lemma insert_grows (h : Heap) (a : addr) (o o' : Object) :
  h !! a = Some o → grows o o' →
  ∀ b x, h !! b = Some x → ∃ x', <[a := o']> h !! b = Some x' ∧ grows x x'.
Proof.
  intros Ho Hg b x Hx. destruct (decide (a = b)) as [<-|Hne].
  - rewrite list_lookup_insert_eq by (eapply lookup_lt_Some; eauto).
    rewrite Ho in Hx. injection Hx as <-. eauto.
  - rewrite list_lookup_insert_ne by done. eauto using grows_refl.
Qed.

Lemma LookupShallow_grows (h h' : Heap) (this : addr) (name : string)
  (r : list Ptr) :
  LookupShallow h this name = Ok (r, h') →
  length h' = length h
  ∧ ∀ b x, h !! b = Some x → ∃ x', h' !! b = Some x' ∧ grows x x'.
Proof.
  unfold LookupShallow. intros E. apply bind_Ok_inv in E as (s & Es & E).
  apply deref_scope_Ok_inv in Es as (o & Ho & Hs).
  pose proof (Scope_LookupShallow_base name s) as Hb.
  pose proof (λ n, Scope_LookupShallow_decls name n s) as Hd.
  destruct (Scope_LookupShallow name s) as [v s']; simpl in *.
  injection E as <- <-. unfold store_scope. rewrite Ho.
  split; [by rewrite length_insert|].
  apply (insert_grows h this o _ Ho).
  apply (Object_with_scope_grows o s s' Hs Hb). intros n. by rewrite Hd.
Qed.

Lemma Lookup_rec_grows (depth : nat) (h h' : Heap) (this : addr)
  (name : string) (r : list Ptr) :
  Lookup_rec depth h this name = Ok (r, h') →
  length h' = length h
  ∧ ∀ b x, h !! b = Some x → ∃ x', h' !! b = Some x' ∧ grows x x'.
Proof.
  revert h h' this r. induction depth as [|depth IH]; intros h h' this r;
    simpl; [done|].
  intros E. apply bind_Ok_inv in E as (s & _ & E).
  apply bind_Ok_inv in E as ([rp h1] & Ep & E).
  apply bind_Ok_inv in E as ([v h2] & E2 & E). injection E as _ <-.
  apply LookupShallow_grows in E2 as [L2 G2].
  assert (length h1 = length h
          ∧ ∀ b x, h !! b = Some x → ∃ x', h1 !! b = Some x' ∧ grows x x')
    as [L1 G1].
  { destruct (ParentScope (Scope_base s)) as [parent|].
    - by eapply IH.
    - injection Ep as _ <-. split; [done|]. eauto using grows_refl. }
  split; [congruence|]. intros b x Hx.
  destruct (G1 b x Hx) as (x1 & Hx1 & Gx1).
  destruct (G2 b x1 Hx1) as (x2 & Hx2 & Gx2).
  eauto using grows_trans.
Qed.

Lemma AddDeclarable_grows (h h' : Heap) (this : addr) (name : string)
  (d r : Ptr) :
  AddDeclarable h this name d = Ok (r, h') →
  length h' = length h
  ∧ ∀ b x, h !! b = Some x → ∃ x', h' !! b = Some x' ∧ grows x x'.
Proof.
  intros E. pose proof E as E'. unfold AddDeclarable in E'.
  apply bind_Ok_inv in E' as (s & Es & _).
  apply deref_scope_Ok_inv in Es as (o & Ho & Hs).
  destruct (AddDeclarable_spec h this o s name d Ho Hs) as (s' & E2 & Hb & Hd).
  rewrite E in E2. injection E2 as _ ->.
  split; [by rewrite length_insert|].
  apply (insert_grows h this o _ Ho).
  apply (Object_with_scope_grows o s s' Hs Hb). intros n. rewrite Hd.
  destruct (decide (name = n)) as [<-|_]; [by apply prefix_app_r | done].
Qed.

(** A step keeps every object in place and lets it only grow; only a
    construction adds an object, at the next address. *)
Lemma method_call_grows (h h' : Heap) :
  method_call h h' →
  (length h' = length h
   ∨ ∃ ctx o, scope_ptr_ok h (CurrentScope ctx) = true ∧ constructed ctx o
              ∧ h' = h ++ [o])
  ∧ ∀ b x, h !! b = Some x → ∃ x', h' !! b = Some x' ∧ grows x x'.
Proof.
  intros [ctx h0 o Hok Hc|h0 this name d r h1 E|h0 this name r h1 E
         |h0 this name r h1 E|h0 this v h1 E|h0 this h1 E|h0 this k c h1 E].
  - unfold new. simpl. split; [right; eauto|].
    intros b x Hx. exists x. split; [by apply lookup_app_l_Some|].
    apply grows_refl.
  - apply AddDeclarable_grows in E as [L G]. split; [by left | done].
  - apply LookupShallow_grows in E as [L G]. split; [by left | done].
  - apply Lookup_rec_grows in E as [L G]. split; [by left | done].
  - unfold call_set_value, deref in E.
    destruct (h0 !! this) as [o|] eqn:Ho; [|done]. simpl in E.
    destruct o; try done; apply bind_Ok_inv in E as (x & Ex & E);
      injection E as <-; apply set_value_frame in Ex as (Hb & Ht & Hn & Hv & _);
      (split; [left; by rewrite length_insert|]);
      apply (insert_grows h0 this _ _ Ho);
      (unfold grows; split_and!; simpl; try done;
       intros v0 [= <-]; eexists; split_and!; try done;
       intros y Hy; congruence).
  - unfold call_IncrementReturns_at, deref in E.
    destruct (h0 !! this) as [o|] eqn:Ho; [|done]. simpl in E.
    destruct o; try done; injection E as <-;
      (split; [left; by rewrite length_insert|]);
      apply (insert_grows h0 this _ _ Ho);
      (unfold grows; split_and!; simpl; try done;
       [intros s [= <-]; eexists; split; done
       |intros c0 [= <-]; eexists; split_and!; done]).
  - unfold call_AddSpecialization, deref in E.
    destruct (h0 !! this) as [o|] eqn:Ho; [|done]. simpl in E.
    destruct o; try done. apply bind_Ok_inv in E as (g' & Eg & E).
    injection E as <-. rewrite AddSpecialization_outcome in Eg.
    destruct (specializations_ g !! k) eqn:Ek; [done|]. injection Eg as <-.
    split; [left; by rewrite length_insert|].
    apply (insert_grows h0 this _ _ Ho).
    unfold grows; split_and!; simpl; try done.
    intros g0 [= <-]. eexists. split_and!; try done. simpl.
    intros k' c' Hk'. rewrite lookup_insert_ne; [done|]. congruence.
Qed.

Lemma method_calls_grow (h h' : Heap) :
  rtc method_call h h' →
  length h ≤ length h'
  ∧ ∀ b x, h !! b = Some x → ∃ x', h' !! b = Some x' ∧ grows x x'.
Proof.
  induction 1 as [h|h h1 h2 Hstep _ [L2 G2]].
  - split; [done|]. eauto using grows_refl.
  - apply method_call_grows in Hstep as [L1 G1].
    split; [destruct L1 as [L1|(? & ? & _ & _ & ->)];
            [lia | rewrite length_app in L2; lia]|].
    intros b x Hx. destruct (G1 b x Hx) as (x1 & Hx1 & Gx1).
    destruct (G2 b x1 Hx1) as (x2 & Hx2 & Gx2). eauto using grows_trans.
Qed.

Lemma grows_heap_wf (h h' : Heap) :
  heap_wf h → length h' = length h →
  (∀ b x, h !! b = Some x → ∃ x', h' !! b = Some x' ∧ grows x x') →
  heap_wf h'.
Proof.
  intros Hwf Hlen G a o' Ho'.
  pose proof (lookup_lt_Some _ _ _ Ho') as Hlt. rewrite Hlen in Hlt.
  destruct (lookup_lt_is_Some_2 h a Hlt) as [o Ho].
  destruct (G a o Ho) as (x' & Hx' & Gx). rewrite Ho' in Hx'.
  injection Hx' as <-. destruct Gx as (Hb & Hk & _).
  destruct (Hwf a o Ho) as [Hp Hko]. split.
  - unfold parent_ok in *. rewrite Hb.
    destruct (ParentScope (Object_base o)) as [p|]; [|done].
    apply andb_true_iff in Hp as [Hpl Hp]. apply andb_true_iff.
    split; [done|]. destruct (h !! p) as [po|] eqn:Epo; [|done].
    destruct (G p po Epo) as (po' & -> & (_ & _ & HS & _)).
    destruct (Object_scope po) as [ps|]; [|done].
    destruct (HS ps eq_refl) as (ps' & -> & _). done.
  - unfold kind_ok in *. by rewrite Hb, Hk.
Qed.

Lemma method_call_wf (h h' : Heap) : heap_wf h → method_call h h' → heap_wf h'.
Proof.
  intros Hwf Hstep.
  destruct (method_call_grows h h' Hstep) as [[L|(ctx & o & Hok & Hc & ->)] G].
  - by eapply grows_heap_wf.
  - pose proof (constructed_base ctx o Hc) as Hb.
    apply (new_wf h o Hwf); [by rewrite Hb|].
    unfold kind_ok. by rewrite Hb, bool_decide_eq_true.
Qed.

Lemma method_calls_wf (h h' : Heap) :
  heap_wf h → rtc method_call h h' → heap_wf h'.
Proof. intros Hwf H. induction H; eauto using method_call_wf. Qed.

(** X8. What no method changes.  Through any sequence of constructions and
    method calls, an object stays at its address with its class, kind,
    parent scope and position, so every kind test on it answers as before;
    a Callable keeps its name, signature, transitioning flag and body, and
    so IsExternal(); a Value keeps its type and name; a Generic keeps its
    name and declaration. *)
Theorem methods_keep_identity (h h' : Heap) (a : addr) (o : Object) :
  rtc method_call h h' → h !! a = Some o →
  ∃ o', h' !! a = Some o'
    ∧ Object_kind o' = Object_kind o
    ∧ kind (Object_base o') = kind (Object_base o)
    ∧ ParentScope (Object_base o') = ParentScope (Object_base o)
    ∧ pos (Object_base o') = pos (Object_base o)
    ∧ (∀ x, Is x (Object_base o') = Is x (Object_base o))
    ∧ (∀ c, Object_callable o = Some c →
         ∃ c', Object_callable o' = Some c'
               ∧ Callable_name_ c' = Callable_name_ c
               ∧ signature c' = signature c
               ∧ IsTransitioning c' = IsTransitioning c
               ∧ body c' = body c
               ∧ IsExternal c' = IsExternal c)
    ∧ (∀ v, Object_value o = Some v →
         ∃ v', Object_value o' = Some v'
               ∧ type_ v' = type_ v ∧ Value_name_ v' = Value_name_ v)
    ∧ (∀ g, Object_generic o = Some g →
         ∃ g', Object_generic o' = Some g'
               ∧ Generic_name_ g' = Generic_name_ g
               ∧ declaration_ g' = declaration_ g).
Proof.
  intros Hsteps Ho.
  destruct (method_calls_grow h h' Hsteps) as [_ G].
  destruct (G a o Ho) as (o' & Ho' & (Hb & Hk & _ & HV & HC & HG)).
  exists o'. split_and!; try done; try by rewrite Hb.
  - intros c Hc. destruct (HC c Hc) as (c' & Hc' & Hn & Hs & Ht & Hbd).
    exists c'. unfold signature, IsTransitioning, body, IsExternal.
    split_and!; try done. by rewrite Hbd.
  - intros v Hv. destruct (HV v Hv) as (v' & Hv' & Ht & Hn & _). eauto.
  - intros g Hg. destruct (HG g Hg) as (g' & Hg' & Hn & Hd & _). eauto.
Qed.

(** X9. The registry of a scope is append-only.  Through any sequence of
    constructions and method calls, the vector registered under a name in
    a scope is extended at its end and never shortened, reordered or
    removed. *)
Theorem registry_is_append_only (h h' : Heap) (a : addr) (name : string) :
  rtc method_call h h' →
  decls_at h a name `prefix_of` decls_at h' a name.
Proof.
  intros Hsteps. destruct (method_calls_grow h h' Hsteps) as [_ G].
  unfold decls_at at 1. destruct (h !! a) as [o|] eqn:Ho; [|apply prefix_nil].
  destruct (Object_scope o) as [s|] eqn:Hs; [|apply prefix_nil].
  destruct (G a o Ho) as (o' & Ho' & (_ & _ & HS & _)).
  destruct (HS s Hs) as (s' & Hs' & Hp).
  rewrite (decls_at_scope h' a o' s' name Ho' Hs'). apply Hp.
Qed.

(** X10. The value of a Value is written once.  Once [value()] returns
    [x], through any sequence of constructions and method calls it keeps
    returning [x], and every later set_value on the object is a failed
    check. *)
Theorem value_is_write_once (h h' : Heap) (a : addr) (o : Object) (v : Value)
  (x : VisitResult) :
  rtc method_call h h' → h !! a = Some o → Object_value o = Some v →
  value v = Ok x →
  ∃ o' v', h' !! a = Some o' ∧ Object_value o' = Some v'
           ∧ value v' = Ok x
           ∧ ∀ y, call_set_value h' a y = Fatal.
Proof.
  intros Hsteps Ho Hv Hx.
  destruct (method_calls_grow h h' Hsteps) as [_ G].
  destruct (G a o Ho) as (o' & Ho' & (_ & _ & _ & HV & _)).
  destruct (HV v Hv) as (v' & Hv' & _ & _ & Hkeep).
  unfold value in Hx. destruct (value_ v) as [x0|] eqn:Ex; [|done].
  injection Hx as ->. specialize (Hkeep x eq_refl).
  exists o', v'. split_and!; try done.
  - unfold value. by rewrite Hkeep.
  - intros y. unfold call_set_value, deref. rewrite Ho'. simpl.
    destruct o'; simpl in Hv'; try discriminate; injection Hv' as <-;
      unfold set_value; by rewrite Hkeep.
Qed.

(** X11. The specialization cache only grows.  Once GetSpecialization(k)
    returns [c], through any sequence of constructions and method calls it
    keeps returning [c], and every later AddSpecialization with [k] on the
    Generic is a failed check. *)
Theorem cache_entries_stay (h h' : Heap) (a : addr) (o : Object) (g : Generic)
  (k : TypeVector) (c : Ptr) :
  rtc method_call h h' → h !! a = Some o → Object_generic o = Some g →
  GetSpecialization k g = Some c →
  ∃ o' g', h' !! a = Some o' ∧ Object_generic o' = Some g'
           ∧ GetSpecialization k g' = Some c
           ∧ ∀ c', call_AddSpecialization h' a k c' = Fatal.
Proof.
  intros Hsteps Ho Hg Hk.
  destruct (method_calls_grow h h' Hsteps) as [_ G].
  destruct (G a o Ho) as (o' & Ho' & (_ & _ & _ & _ & _ & HG)).
  destruct (HG g Hg) as (g' & Hg' & _ & _ & Hkeep).
  specialize (Hkeep k c Hk). exists o', g'. split_and!; try done.
  intros c'. unfold call_AddSpecialization, deref. rewrite Ho'. simpl.
  destruct o'; simpl in Hg'; try discriminate. injection Hg' as <-.
  rewrite AddSpecialization_outcome. by rewrite Hkeep.
Qed.

Lemma methods_keep_identity_witness :
  ∃ h' o',
    AddDeclarable scenario_heap 2 "kZero" (Some 9) = Ok (Some 9, h')
    ∧ h' !! 2 = Some o'
    ∧ Object_kind o' = kMacro
    ∧ ParentScope (Object_base o') = Some 0.
Proof.
  assert (∃ h', AddDeclarable scenario_heap 2 "kZero" (Some 9)
                = Ok (Some 9, h')) as [h' E]
    by (eexists; vm_compute; reflexivity).
  assert (∃ o, scenario_heap !! 2 = Some o ∧ Object_kind o = kMacro
               ∧ ParentScope (Object_base o) = Some 0)
    as (o & Ho & Hk & Hp)
    by (eexists; split_and!; vm_compute; reflexivity).
  destruct (methods_keep_identity scenario_heap h' 2 o
              (rtc_once _ _ (method_AddDeclarable _ _ _ _ _ _ E)) Ho)
    as (o' & Ho' & Hk' & _ & Hp' & _).
  exists h', o'. split_and!; [exact E | exact Ho' | | ].
  - rewrite Hk'. exact Hk.
  - rewrite Hp'. exact Hp.
Defined.

Lemma registry_is_append_only_witness :
  ∃ h',
    AddDeclarable scenario_heap 2 "kZero" (Some 9) = Ok (Some 9, h')
    ∧ [Some 3] `prefix_of` decls_at h' 2 "kZero".
Proof.
  assert (∃ h', AddDeclarable scenario_heap 2 "kZero" (Some 9)
                = Ok (Some 9, h')) as [h' E]
    by (eexists; vm_compute; reflexivity).
  exists h'. split; [exact E|].
  assert (decls_at scenario_heap 2 "kZero" = [Some 3]) as <-
    by (vm_compute; reflexivity).
  apply registry_is_append_only.
  exact (rtc_once _ _ (method_AddDeclarable _ _ _ _ _ _ E)).
Defined.

Lemma value_is_write_once_witness :
  ∃ h',
    AddDeclarable scenario_heap 2 "kZero" (Some 9) = Ok (Some 9, h')
    ∧ call_set_value h' 1 {| vr_type := Int32; vr_value := "1" |} = Fatal.
Proof.
  assert (∃ h', AddDeclarable scenario_heap 2 "kZero" (Some 9)
                = Ok (Some 9, h')) as [h' E]
    by (eexists; vm_compute; reflexivity).
  assert (∃ o v x, scenario_heap !! 1 = Some o ∧ Object_value o = Some v
                   ∧ value v = Ok x) as (o & v & x & Ho & Hv & Hx)
    by (eexists _, _, _; split_and!; vm_compute; reflexivity).
  destruct (value_is_write_once scenario_heap h' 1 o v x
              (rtc_once _ _ (method_AddDeclarable _ _ _ _ _ _ E)) Ho Hv Hx)
    as (o' & v' & _ & _ & _ & HF).
  exists h'. split; [exact E | apply HF].
Defined.

Lemma cache_entries_stay_witness :
  ∃ h' o' g',
    call_AddSpecialization generic_heap 0 [Float64] (Some 3) = Ok h'
    ∧ h' !! 0 = Some o' ∧ Object_generic o' = Some g'
    ∧ GetSpecialization [Int32] g' = Some (Some 2)
    ∧ call_AddSpecialization h' 0 [Int32] (Some 4) = Fatal.
Proof.
  assert (∃ h', call_AddSpecialization generic_heap 0 [Float64] (Some 3)
                = Ok h') as [h' E]
    by (eexists; vm_compute; reflexivity).
  assert (∃ o g, generic_heap !! 0 = Some o ∧ Object_generic o = Some g
                 ∧ GetSpecialization [Int32] g = Some (Some 2))
    as (o & g & Ho & Hg & Hk)
    by (eexists _, _; split_and!; vm_compute; reflexivity).
  destruct (cache_entries_stay generic_heap h' 0 o g [Int32] (Some 2)
              (rtc_once _ _ (method_AddSpecialization _ _ _ _ _ E)) Ho Hg Hk)
    as (o' & g' & Ho' & Hg' & Hk' & HF).
  exists h', o', g'. split_and!; [exact E | exact Ho' | exact Hg' | exact Hk' |].
  apply HF.
Defined.

(** ** More on CurrentModule *)

Lemma CurrentModule_loop_outcome (steps : nat) (h : Heap) (scope : Ptr) :
  match CurrentModule_loop steps h scope with
  | Ok p => ∃ a o, p = Some a ∧ h !! a = Some o
                   ∧ IsModule (Object_base o) = true
  | Fatal | Error _ => False
  | Undefined u => u = NullDereference ∨ u = DanglingPointer
  | Diverges => True
  end.
Proof.
  revert scope. induction steps as [|steps IH]; intros scope; [done|].
  cbn [CurrentModule_loop]. destruct scope as [a|]; [|by left].
  destruct (h !! a) as [o|] eqn:Ho.
  - rewrite (DynamicCast_Module_Some _ _ _ Ho).
    destruct (IsModule (Object_base o)) eqn:Hm; simpl.
    + eauto.
    + rewrite Ho. simpl. apply IH.
  - unfold DynamicCast, deref. rewrite Ho. by right.
Qed.

(** X17. [CurrentModule()] has three outcomes only: it returns a non-null
    pointer to a live object of kind kModule, which the strict cast to
    Module accepts; or it dereferences a null or a dangling pointer; or it
    does not end.  It is never a failed check nor a declaration error, and
    it never returns null.  On a well-formed arena with the current scope
    null or a scope of the arena only the first and the dereference of the
    null pointer are left. *)
Theorem CurrentModule_outcomes (ctx : Context) (h : Heap) :
  CurrentModule ctx h ≠ Fatal
  ∧ (∀ msg, CurrentModule ctx h ≠ Error msg)
  ∧ (∀ u, CurrentModule ctx h = Undefined u →
          u = NullDereference ∨ u = DanglingPointer)
  ∧ (∀ p, CurrentModule ctx h = Ok p →
      ∃ a o, p = Some a ∧ h !! a = Some o
             ∧ kind (Object_base o) = kModule
             ∧ cast class_Module h p = Ok p)
  ∧ (heap_wf h → scope_ptr_ok h (CurrentScope ctx) = true →
     CurrentModule ctx h = Undefined NullDereference
     ∨ ∃ a, CurrentModule ctx h = Ok (Some a)).
Proof.
  split_and!.
  1-4: unfold CurrentModule;
    pose proof (CurrentModule_loop_outcome (S (length h)) h (CurrentScope ctx))
      as H;
    destruct (CurrentModule_loop (S (length h)) h (CurrentScope ctx))
      as [p| |msg|u|]; try done.
  - by intros u' [= <-].
  - intros p' [= <-].
    destruct H as (a & o & -> & Ho & Hm). exists a, o.
    split_and!; try done.
    + unfold IsModule in Hm. by apply bool_decide_eq_true in Hm.
    + unfold cast, deref. rewrite Ho. simpl. by rewrite Hm.
  - intros Hwf Hok. unfold CurrentModule.
    rewrite (CurrentModule_loop_chain h Hwf (S (length h)) (length h)
               (CurrentScope ctx)).
    + destruct (List.find _ _); eauto.
    + unfold scope_ptr_ok in Hok.
      destruct (CurrentScope ctx) as [a|]; [|lia].
      destruct (h !! a) as [o|] eqn:Ho; [|done].
      apply lookup_lt_Some in Ho as Hlt. split_and!; [lia | lia | eauto].
Qed.

Lemma CurrentModule_outcomes_witness :
  ∃ o, CurrentModule (inside 3) scenario_heap = Ok (Some 0)
       ∧ scenario_heap !! 0 = Some o
       ∧ kind (Object_base o) = kModule
       ∧ cast class_Module scenario_heap (Some 0) = Ok (Some 0).
Proof.
  destruct (proj1 (proj2 (proj2 (proj2
              (CurrentModule_outcomes (inside 3) scenario_heap))))
              (Some 0)) as (a & o & Ha & Ho & Hk & Hc).
  - vm_compute. reflexivity.
  - injection Ha as <-. exists o. split; [vm_compute; reflexivity|].
    split_and!; assumption.
Defined.

Lemma CurrentModule_as_nearest (ctx : Context) (h : Heap) :
  heap_wf h → scope_ptr_ok h (CurrentScope ctx) = true →
  CurrentModule ctx h
  = match nearest_module h (CurrentScope ctx) with
    | Some m => Ok (Some m)
    | None => Undefined NullDereference
    end.
Proof.
  intros Hwf Hok. apply CurrentModule_loop_chain; [done|].
  unfold scope_ptr_ok in Hok.
  destruct (CurrentScope ctx) as [a|]; [|lia].
  destruct (h !! a) as [o|] eqn:Ho; [|done].
  apply lookup_lt_Some in Ho as Hlt. split_and!; [lia | lia | eauto].
Qed.

Lemma find_ext_in {A} (f g : A → bool) (l : list A) :
  (∀ x, x ∈ l → f x = g x) → List.find f l = List.find g l.
Proof.
  induction l as [|x l IH]; intros H; simpl; [done|].
  rewrite <- (H x) by left. destruct (f x); [done|].
  apply IH. intros y Hy. apply H. by right.
Qed.

Lemma find_module_agree (h h' : Heap) (n m : nat) (p : Ptr) :
  heap_wf h →
  (∀ a o, h !! a = Some o →
          ∃ o', h' !! a = Some o' ∧ Object_base o' = Object_base o) →
  match p with
  | Some a => is_Some (h !! a) ∧ a < n ∧ a < m
  | None => True
  end →
  List.find (is_module h') (chain m h' p)
  = List.find (is_module h) (chain n h p).
Proof.
  intros Hwf Hsame Hp.
  destruct p as [a|]; [|by rewrite !chain_None].
  destruct Hp as (Hlive & Hn & Hm).
  rewrite <- (chain_agree h h' Hwf Hsame n m a Hn Hm Hlive).
  apply find_ext_in. intros c Hc. apply chain_elem_live in Hc as [o Ho].
  unfold is_module. rewrite Ho. by destruct (Hsame c o Ho) as (o' & -> & ->).
Qed.

Lemma nearest_module_agree (h h' : Heap) (p : Ptr) :
  heap_wf h →
  (∀ a o, h !! a = Some o →
          ∃ o', h' !! a = Some o' ∧ Object_base o' = Object_base o) →
  match p with Some a => is_Some (h !! a) | None => True end →
  nearest_module h' p = nearest_module h p.
Proof.
  intros Hwf Hsame Hp. unfold nearest_module.
  apply find_module_agree; [done | done |].
  destruct p as [a|]; [|done]. split_and!; [done | |].
  - by apply lookup_lt_is_Some_1.
  - destruct Hp as [o Ho]. destruct (Hsame a o Ho) as (o' & Ho' & _).
    by eapply lookup_lt_Some.
Qed.

Lemma grows_same_bases (h h' : Heap) :
  (∀ b x, h !! b = Some x → ∃ x', h' !! b = Some x' ∧ grows x x') →
  ∀ a o, h !! a = Some o →
         ∃ o', h' !! a = Some o' ∧ Object_base o' = Object_base o.
Proof.
  intros G a o Ho. destruct (G a o Ho) as (o' & Ho' & (Hb & _)). eauto.
Qed.

(** X18. No construction and no method call moves the current module: on a
    well-formed arena, with the current scope null or a scope of the arena,
    [CurrentModule()] has after any sequence of constructions and method
    calls the outcome it had before. *)
Theorem CurrentModule_is_stable (ctx : Context) (h h' : Heap) :
  heap_wf h → scope_ptr_ok h (CurrentScope ctx) = true →
  rtc method_call h h' →
  CurrentModule ctx h' = CurrentModule ctx h.
Proof.
  intros Hwf Hok Hsteps.
  pose proof (method_calls_wf h h' Hwf Hsteps) as Hwf'.
  destruct (method_calls_grow h h' Hsteps) as [_ G].
  assert (scope_ptr_ok h' (CurrentScope ctx) = true) as Hok'.
  { unfold scope_ptr_ok in *. destruct (CurrentScope ctx) as [a|]; [|done].
    destruct (h !! a) as [o|] eqn:Ho; [|done].
    destruct (G a o Ho) as (o' & -> & (_ & _ & HS & _)).
    destruct (Object_scope o) as [s|]; [|done].
    by destruct (HS s eq_refl) as (s' & -> & _). }
  rewrite (CurrentModule_as_nearest ctx h' Hwf' Hok').
  rewrite (CurrentModule_as_nearest ctx h Hwf Hok).
  rewrite (nearest_module_agree h h' _ Hwf (grows_same_bases h h' G)); [done|].
  unfold scope_ptr_ok in Hok. destruct (CurrentScope ctx) as [a|]; [|done].
  destruct (h !! a); [eauto | done].
Qed.

Lemma CurrentModule_is_stable_witness :
  ∃ h',
    AddDeclarable scenario_heap 2 "kZero" (Some 9) = Ok (Some 9, h')
    ∧ CurrentModule (inside 3) h' = Ok (Some 0).
Proof.
  assert (∃ h', AddDeclarable scenario_heap 2 "kZero" (Some 9)
                = Ok (Some 9, h')) as [h' E]
    by (eexists; vm_compute; reflexivity).
  exists h'. split; [exact E|].
  rewrite (CurrentModule_is_stable (inside 3) scenario_heap h').
  - vm_compute. reflexivity.
  - apply heap_wfb_wf. vm_compute. reflexivity.
  - vm_compute. reflexivity.
  - exact (rtc_once _ _ (method_AddDeclarable _ _ _ _ _ _ E)).
Defined.

(** X19. Entering a scope that was just constructed: on a well-formed
    arena, when a Module or a Callable is constructed under the current
    scope and then made the current scope, [CurrentModule()] returns the
    new object when it is a Module, and has the outcome it had under the
    scope of construction when it is a Callable. *)
Theorem CurrentModule_in_new_scope (ctx : Context) (h : Heap) (o : Object)
  (position : SourcePosition) :
  heap_wf h → scope_ptr_ok h (CurrentScope ctx) = true → constructed ctx o →
  is_Some (Object_scope o) →
  CurrentModule {| CurrentScope := Some (new o h).1;
                   CurrentSourcePosition := position |} (new o h).2
  = if instance_of class_Module o then Ok (Some (length h))
    else CurrentModule ctx h.
Proof.
  intros Hwf Hok Hc [s Hs]. unfold new. cbn [fst snd].
  pose proof (constructed_base ctx o Hc) as Hb.
  assert (heap_wf (h ++ [o])) as Hwf'.
  { apply (new_wf h o Hwf); [by rewrite Hb|].
    unfold kind_ok. by rewrite Hb, bool_decide_eq_true. }
  assert ((h ++ [o]) !! length h = Some o) as Ho by apply list_lookup_middle, eq_refl.
  rewrite CurrentModule_as_nearest; [|done|]; cbn [CurrentScope].
  2: { unfold scope_ptr_ok. by rewrite Ho, Hs. }
  unfold nearest_module. rewrite length_app. simpl length.
  rewrite Nat.add_1_r. cbn [chain]. rewrite Ho. cbn [List.find].
  unfold is_module at 1. rewrite Ho.
  assert (IsModule (Object_base o) = instance_of class_Module o) as ->.
  { rewrite Hb. unfold IsModule. simpl. by destruct o. }
  destruct (instance_of class_Module o); [done|].
  rewrite Hb. unfold ParentScope. simpl parent_scope_.
  rewrite (CurrentModule_as_nearest ctx h Hwf Hok). unfold nearest_module.
  rewrite (find_module_agree h (h ++ [o]) (length h) (length h)); [done|done| |].
  - intros a x Hx. exists x. split; [by apply lookup_app_l_Some | done].
  - unfold scope_ptr_ok in Hok. destruct (CurrentScope ctx) as [p|]; [|done].
    destruct (h !! p) as [po|] eqn:Hpo; [|done].
    pose proof (lookup_lt_Some _ _ _ Hpo). eauto.
Qed.

Lemma CurrentModule_in_new_scope_witness :
  ∃ b,
    Builtin_ctor (inside 2) "Baz" kStub fixed_signature false None = Ok b
    ∧ CurrentModule
        {| CurrentScope := Some (new (OBuiltin b) scenario_heap).1;
           CurrentSourcePosition := pos0 |}
        (new (OBuiltin b) scenario_heap).2
      = Ok (Some 0).
Proof.
  eexists. split; [reflexivity|].
  rewrite (CurrentModule_in_new_scope (inside 2) scenario_heap
             (OBuiltin _) pos0).
  - vm_compute. reflexivity.
  - apply heap_wfb_wf. vm_compute. reflexivity.
  - vm_compute. reflexivity.
  - by apply (constructed_Builtin (inside 2) "Baz" kStub fixed_signature
                false None).
  - simpl. eauto.
Defined.

(** ** Arenas built by the header, as sequences of steps *)

Lemma built_step (h h' : Heap) : built h → method_call h h' → built h'.
Proof.
  intros Hb Hstep. revert Hb.
  destruct Hstep as [ctx h0 o Hok Hc|h0 this name d r h1 E|h0 this name r h1 E
            |h0 this name r h1 E|h0 this v h1 E|h0 this h1 E|h0 this k c h1 E];
    intros Hb.
  - exact (built_new ctx h0 o Hb Hok Hc).
  - by eapply built_AddDeclarable.
  - by eapply built_LookupShallow.
  - by eapply built_Lookup.
  - by eapply built_set_value.
  - by eapply built_IncrementReturns.
  - by eapply built_AddSpecialization.
Qed.

Lemma built_iff_method_calls (h : Heap) : built h ↔ rtc method_call [] h.
Proof.
  split.
  - induction 1; [done|eapply rtc_r; [eassumption|]..].
    + eapply method_new; eassumption.
    + by eapply method_AddDeclarable.
    + by eapply method_LookupShallow.
    + by eapply method_Lookup.
    + by eapply method_set_value.
    + by eapply method_IncrementReturns.
    + by eapply method_AddSpecialization.
  - intros H. assert (built []) as H0 by constructor.
    revert H0. induction H; eauto using built_step.
Qed.

(** X21. Scopes nest strictly in every arena built by the header: the
    parent scope of an object is null or a Scope object at a lower address,
    constructed before it, so no chain of parents runs in a cycle.  Hence on
    such an arena Lookup from every scope returns, leaving an arena built by
    the header, and [CurrentModule()] ends. *)
Theorem built_arena_invariant (h : Heap) :
  built h →
  (∀ a o, h !! a = Some o →
     match ParentScope (Object_base o) with
     | Some p => p < a ∧ ∃ po, h !! p = Some po ∧ is_Some (Object_scope po)
     | None => True
     end)
  ∧ (∀ a b n, b ∈ chain n h (Some a) → b ≤ a)
  ∧ (∀ a name, scope_ptr_ok h (Some a) = true →
       ∃ r h', Lookup h a name = Ok (r, h') ∧ built h')
  ∧ (∀ ctx, scope_ptr_ok h (CurrentScope ctx) = true →
       CurrentModule ctx h ≠ Diverges).
Proof.
  intros Hb. pose proof (built_wf h Hb) as Hwf. split_and!.
  - intros a o Ho. destruct (Hwf a o Ho) as [Hp _].
    unfold parent_ok in Hp.
    destruct (ParentScope (Object_base o)) as [p|]; [|done].
    apply andb_true_iff in Hp as [Hlt%bool_decide_eq_true Hp].
    split; [done|]. destruct (h !! p) as [po|]; [|done].
    exists po. split; [done|]. destruct (Object_scope po); [eauto | done].
  - intros a b n. apply (chain_le h Hwf).
  - intros a name Hok.
    destruct (Lookup_closed h a name Hwf Hok) as (h' & E & _).
    exists (along_chain h a name), h'. split; [done|].
    by eapply built_Lookup.
  - intros ctx Hok. rewrite (CurrentModule_as_nearest ctx h Hwf Hok).
    by destruct (nearest_module h (CurrentScope ctx)).
Qed.

Lemma built_arena_invariant_witness :
  (∃ r h', Lookup scenario_heap 3 "Foo" = Ok (r, h') ∧ built h')
  ∧ CurrentModule (inside 3) scenario_heap ≠ Diverges.
Proof.
  destruct (built_arena_invariant scenario_heap scenario_built)
    as (_ & _ & HL & HC).
  split; [apply HL | apply HC]; vm_compute; reflexivity.
Defined.

(** ** Visibility *)

(** X22. A declarable registered in a scope is visible from every scope
    nested in it: on a well-formed arena, after [AddDeclarable(name, d)] on
    a scope, Lookup of the name from that scope and from every scope whose
    chain of parents passes through it returns a vector that contains [d];
    and what Lookup returns from any scope is made of entries registered
    under the name in the scopes of its chain, nothing else. *)
Theorem registered_is_visible_below (h h' : Heap) (this : addr)
  (name : string) (d r : Ptr) :
  heap_wf h → AddDeclarable h this name d = Ok (r, h') →
  ∀ b, scope_ptr_ok h (Some b) = true →
    ∃ rb h2, Lookup h' b name = Ok (rb, h2)
      ∧ (this ∈ chain (length h) h (Some b) → d ∈ rb)
      ∧ ∀ x, x ∈ rb →
          ∃ c, c ∈ chain (length h) h (Some b) ∧ x ∈ decls_at h' c name.
Proof.
  intros Hwf E b Hokb.
  pose proof (AddDeclarable_wf _ _ _ _ _ _ Hwf E) as Hwf'.
  destruct (AddDeclarable_decls_at _ _ _ _ _ _ E)
    as (-> & Hok & Hlen & Hsame & Hd).
  assert (scope_ptr_ok h' (Some b) = true) as Hokb'.
  { unfold scope_ptr_ok in *. destruct (h !! b) as [o|] eqn:Ho; [|done].
    destruct (Hsame b o Ho) as (o' & -> & _ & ->). done. }
  assert (∀ a o, h !! a = Some o →
            ∃ o', h' !! a = Some o' ∧ Object_base o' = Object_base o) as Hsb.
  { intros a o Ho. destruct (Hsame a o Ho) as (o' & ? & ? & _). eauto. }
  destruct (Lookup_frame h h' b name Hwf Hwf' Hsb Hokb Hokb') as (h2 & E2).
  eexists _, h2. split; [exact E2|]. split.
  - intros Hin. apply list_elem_of_In, in_concat.
    exists (decls_at h' this name). split.
    + apply in_map_iff. exists this. split; [done|].
      by apply in_rev, list_elem_of_In; rewrite rev_involutive.
    + rewrite Hd, decide_True by done. apply in_or_app. right. by left.
  - intros x Hx. apply list_elem_of_In, in_concat in Hx as (l & Hl & Hx).
    apply in_map_iff in Hl as (c & <- & Hc).
    exists c. split; [|by apply list_elem_of_In].
    by apply list_elem_of_In, in_rev.
Qed.

Lemma registered_is_visible_below_witness :
  ∃ h' rb h2,
    AddDeclarable scenario_heap 0 "kOne" (Some 9) = Ok (Some 9, h')
    ∧ Lookup h' 3 "kOne" = Ok (rb, h2)
    ∧ Some 9 ∈ rb.
Proof.
  assert (∃ h', AddDeclarable scenario_heap 0 "kOne" (Some 9)
                = Ok (Some 9, h')) as [h' E]
    by (eexists; vm_compute; reflexivity).
  destruct (registered_is_visible_below scenario_heap h' 0 "kOne" (Some 9)
              (Some 9)
              ltac:(apply heap_wfb_wf; vm_compute; reflexivity) E 3 eq_refl)
    as (rb & h2 & E2 & Hin & _).
  exists h', rb, h2. split; [exact E|]. split; [exact E2|].
  apply Hin. vm_compute. do 2 right. left.
Defined.
